(** * Sets and their Elements (src/setandelement.cpp)

    A shallow embedding of [CommonSE], [Set] and [SetElement]: the lazily
    allocated attribute map, the encrypted-attribute life cycle, the merge
    of a server update into a local value, and the cache (wire) format.

    Conventions:
    - [handle], [uint64_t], [uint32_t], [int64_t], [m_time_t] are [Z], the
      range of each type being stated where a result depends on it;
    - [std::string] is [string] (a sequence of 8-bit characters);
    - [string_map] ([std::map<string,string>]) is [gmap string string];
    - [std::unique_ptr<T>] is [option T], [nullptr] being [None];
    - the serialized buffer is a [list byte]. *)

From Stdlib Require Import ZArith Lia Strings.Byte Strings.Ascii.
From stdpp Require Import base option list gmap fin_maps strings sorting.

(** ** Handles and change bits *)

(** Modelled from the spec: [UNDEF] of mega/types.h, the "undefined handle"
    sentinel; a handle is 64 bits wide and the sentinel has all bits set. *)
Definition UNDEF : Z := (2 ^ 64 - 1)%Z.

(** Modelled from the spec: the tag of the display-name attribute
    ([CommonSE::nameTag], declared in mega/setandelement.h). *)
Definition nameTag : string := "n".

(** Modelled from the spec: the tag of the cover attribute
    ([Set::coverTag], declared in mega/setandelement.h). *)
Definition coverTag : string := "c".

(** Modelled from the spec: the change kinds of a Set, one bit each
    (enum of mega/setandelement.h). *)
Inductive SetChange := CH_NEW | CH_NAME | CH_COVER | CH_REMOVED.

(** Modelled from the spec: the change kinds of a SetElement, one bit each
    (enum of mega/setandelement.h). *)
Inductive SetElementChange := CH_EL_NEW | CH_EL_NAME | CH_EL_ORDER | CH_EL_REMOVED.

(** The position of the bit of a change kind in the mask. *)
Class ChangeType (A : Type) := change_bit : A → Z.

#[global] Instance SetChange_bit : ChangeType SetChange := λ c,
  match c with
  | CH_NEW => 0 | CH_NAME => 1 | CH_COVER => 2 | CH_REMOVED => 3
  end%Z.

#[global] Instance SetElementChange_bit : ChangeType SetElementChange := λ c,
  match c with
  | CH_EL_NEW => 0 | CH_EL_NAME => 1 | CH_EL_ORDER => 2 | CH_EL_REMOVED => 3
  end%Z.

(** Modelled from the spec: [setChanged] (mega/setandelement.h) ORs the bit
    of the change kind into the mask. *)
Definition mask_set `{ChangeType A} (c : A) (mask : Z) : Z :=
  Z.lor mask (Z.shiftl 1 (change_bit c)).

(** Modelled from the spec: [hasChanged] (mega/setandelement.h), "is a
    specific bit set". *)
Definition mask_test `{ChangeType A} (c : A) (mask : Z) : bool :=
  Z.testbit mask (change_bit c).

(** ** CommonSE *)

(** The data members that Sets and Elements share, as the member
    functions use them. *)
Record CommonSE := mkCommonSE {
  mId : Z;
  mKey : string;
  mAttrs : option (gmap string string);
  mTs : Z;
  mEncryptedAttrs : option string;
}.

(** Assignment to [mAttrs]. *)
Definition with_mAttrs (a : option (gmap string string)) (c : CommonSE) : CommonSE :=
  {| mId := mId c; mKey := mKey c; mAttrs := a; mTs := mTs c;
     mEncryptedAttrs := mEncryptedAttrs c |}.

(** Assignment to [mEncryptedAttrs]. *)
Definition with_mEncryptedAttrs (e : option string) (c : CommonSE) : CommonSE :=
  {| mId := mId c; mKey := mKey c; mAttrs := mAttrs c; mTs := mTs c;
     mEncryptedAttrs := e |}.

(** Modelled from the spec: [CommonSE::setTs] (mega/setandelement.h) stores
    the timestamp. *)
Definition setTs (ts : Z) (c : CommonSE) : CommonSE :=
  {| mId := mId c; mKey := mKey c; mAttrs := mAttrs c; mTs := ts;
     mEncryptedAttrs := mEncryptedAttrs c |}.

(** Modelled from the spec: [CommonSE::hasAttrs] (mega/setandelement.h),
    true when the attribute map is allocated. *)
Definition hasAttrs (c : CommonSE) : bool := bool_decide (is_Some (mAttrs c)).

(** Modelled from the spec: the constructor
    [CommonSE(id, key, attrs)] (mega/setandelement.h) allocates the map it
    is given; timestamp 0, no encrypted blob. *)
Definition CommonSE_new (id : Z) (key : string) (attrs : gmap string string) : CommonSE :=
  {| mId := id; mKey := key; mAttrs := Some attrs; mTs := 0;
     mEncryptedAttrs := None |}.

(** [CommonSE::setAttr] *)
Definition setAttr (tag value : string) (c : CommonSE) : CommonSE :=
  let attrs := default ∅ (mAttrs c) in
  with_mAttrs (Some (<[tag := value]> attrs)) c.

(** [CommonSE::setName] *)
Definition setName (name : string) (c : CommonSE) : CommonSE :=
  setAttr nameTag name c.

(** [CommonSE::getAttr] *)
Definition getAttr (tag : string) (c : CommonSE) : string :=
  match mAttrs c with
  | None => ""
  | Some attrs => default "" (attrs !! tag)
  end.

(** [CommonSE::hasAttrChanged] *)
Definition hasAttrChanged (tag : string) (otherAttrs : option (gmap string string))
    (c : CommonSE) : bool :=
  let otherValue :=
    match otherAttrs with
    | Some other => default "" (other !! tag)
    | None => ""
    end in
  bool_decide (getAttr tag c ≠ otherValue).

(** The body of the loop of [CommonSE::rebaseCommonAttrsOn]: an empty local
    value erases the tag from the copy of the base, any other value
    overrides it. *)
Definition rebase_step (tag value : string) (rebased : gmap string string)
    : gmap string string :=
  if decide (value = "") then delete tag rebased else <[tag := value]> rebased.

(** [CommonSE::rebaseCommonAttrsOn]. The keys of a map are distinct, so the
    order in which the loop visits them does not show in the result. *)
Definition rebaseCommonAttrsOn (baseAttrs : option (gmap string string))
    (c : CommonSE) : CommonSE :=
  match baseAttrs with
  | None => c
  | Some base =>
      let attrs := default ∅ (mAttrs c) in
      let attrs' :=
        if decide (attrs = ∅) then base
        else map_fold rebase_step base attrs in
      with_mAttrs (if decide (attrs' = ∅) then None else Some attrs') c
  end.

(** The decrypt and encrypt callbacks are [std::function]s of the caller:
    they may have effects of their own, which are threaded through a state
    [W] of the caller's world. *)
Section Callbacks.
Context {W : Type}.

(** [bool f(const string& blob, const string& key, string_map& out)] *)
Definition decryptFn : Type :=
  string → string → gmap string string → W → bool * gmap string string * W.

(** [string f(const string_map& attrs, const string& key)] *)
Definition encryptFn : Type :=
  gmap string string → string → W → string * W.

(** [CommonSE::decryptAttributes] *)
Definition decryptAttributes (f : decryptFn) (c : CommonSE) (w : W)
    : bool * CommonSE * W :=
  match mEncryptedAttrs c with
  | None => (true, c, w)
  | Some enc =>
      if decide (enc = "") then
        (true, with_mEncryptedAttrs None (with_mAttrs (Some ∅) c), w)
      else
        let '(ok, newAttrs, w') := f enc (mKey c) ∅ w in
        if ok then
          (true, with_mEncryptedAttrs None (with_mAttrs (Some newAttrs) c), w')
        else (false, c, w')
  end.

(** [CommonSE::encryptAttributes] *)
Definition encryptAttributes (f : encryptFn) (c : CommonSE) (w : W) : string * W :=
  match mAttrs c with
  | None => ("", w)
  | Some attrs => if decide (attrs = ∅) then ("", w) else f attrs (mKey c) w
  end.
End Callbacks.

(** ** Set *)

(** A Set: the members of [CommonSE], the owner and the change mask. *)
Record Set_ := mkSet {
  set_common : CommonSE;
  mUser : Z;
  set_mChanges : Z;
}.

(** Modelled from the spec: the constructor [Set(id, key, user, attrs)]
    (mega/setandelement.h); no change bit is set. *)
Definition Set_new (id : Z) (key : string) (user : Z) (attrs : gmap string string) : Set_ :=
  {| set_common := CommonSE_new id key attrs; mUser := user; set_mChanges := 0 |}.

(** Assignment to the [CommonSE] members of a Set. *)
Definition Set_with_common (c : CommonSE) (s : Set_) : Set_ :=
  {| set_common := c; mUser := mUser s; set_mChanges := set_mChanges s |}.

(** Modelled from the spec: [Set::setChanged] (mega/setandelement.h) marks
    the bit of a change kind. *)
Definition Set_setChanged (ch : SetChange) (s : Set_) : Set_ :=
  {| set_common := set_common s; mUser := mUser s;
     set_mChanges := mask_set ch (set_mChanges s) |}.

(** Modelled from the spec: [Set::hasChanged] (mega/setandelement.h). *)
Definition Set_hasChanged (ch : SetChange) (s : Set_) : bool :=
  mask_test ch (set_mChanges s).

(** Modelled from the spec: [Set::changes] (mega/setandelement.h), the
    mask, read as a [bool] where [updateWith] returns it: some bit is set. *)
Definition Set_changes (s : Set_) : bool := bool_decide (set_mChanges s ≠ 0%Z).

(** [Set::updateWith(Set&& s)]: the result, the updated object and what is
    left in the argument, whose map was swapped out. *)
Definition Set_updateWith (s : Set_) (self : Set_) : bool * Set_ * Set_ :=
  let self1 := Set_with_common (setTs (mTs (set_common s)) (set_common self)) self in
  let self2 :=
    if hasAttrChanged nameTag (mAttrs (set_common s)) (set_common self1)
    then Set_setChanged CH_NAME self1 else self1 in
  let self3 :=
    if hasAttrChanged coverTag (mAttrs (set_common s)) (set_common self2)
    then Set_setChanged CH_COVER self2 else self2 in
  let self4 :=
    Set_with_common (with_mAttrs (mAttrs (set_common s)) (set_common self3)) self3 in
  let s' := Set_with_common (with_mAttrs (mAttrs (set_common self3)) (set_common s)) s in
  (Set_changes self4, self4, s').

(** ** SetElement *)

(** An Element: the members of [CommonSE], the Set it belongs to, the node
    it wraps, the order if any, the flag of the last update and the change
    mask. *)
Record SetElement := mkSetElement {
  el_common : CommonSE;
  mSetId : Z;
  mNodeHandle : Z;
  mOrder : option Z;
  mAttrsClearedByLastUpdate : bool;
  el_mChanges : Z;
}.

(** Modelled from the spec: the constructor
    [SetElement(sid, node, elemId, key, attrs)] (mega/setandelement.h); no
    order, no change bit, the cleared flag off. *)
Definition SetElement_new (sid node elemId : Z) (key : string)
    (attrs : gmap string string) : SetElement :=
  {| el_common := CommonSE_new elemId key attrs; mSetId := sid; mNodeHandle := node;
     mOrder := None; mAttrsClearedByLastUpdate := false; el_mChanges := 0 |}.

(** Assignment to the [CommonSE] members of an Element. *)
Definition SetElement_with_common (c : CommonSE) (e : SetElement) : SetElement :=
  {| el_common := c; mSetId := mSetId e; mNodeHandle := mNodeHandle e;
     mOrder := mOrder e; mAttrsClearedByLastUpdate := mAttrsClearedByLastUpdate e;
     el_mChanges := el_mChanges e |}.

(** Assignment to [mOrder]. *)
Definition SetElement_with_mOrder (o : option Z) (e : SetElement) : SetElement :=
  {| el_common := el_common e; mSetId := mSetId e; mNodeHandle := mNodeHandle e;
     mOrder := o; mAttrsClearedByLastUpdate := mAttrsClearedByLastUpdate e;
     el_mChanges := el_mChanges e |}.

(** Modelled from the spec: [SetElement::setChanged]
    (mega/setandelement.h) marks the bit of a change kind. *)
Definition SetElement_setChanged (ch : SetElementChange) (e : SetElement) : SetElement :=
  {| el_common := el_common e; mSetId := mSetId e; mNodeHandle := mNodeHandle e;
     mOrder := mOrder e; mAttrsClearedByLastUpdate := mAttrsClearedByLastUpdate e;
     el_mChanges := mask_set ch (el_mChanges e) |}.

(** Modelled from the spec: [SetElement::hasChanged]
    (mega/setandelement.h). *)
Definition SetElement_hasChanged (ch : SetElementChange) (e : SetElement) : bool :=
  mask_test ch (el_mChanges e).

(** Modelled from the spec: [SetElement::changes] (mega/setandelement.h),
    the mask, read as a [bool] where [updateWith] returns it. *)
Definition SetElement_changes (e : SetElement) : bool :=
  bool_decide (el_mChanges e ≠ 0%Z).

(** Modelled from the spec: [SetElement::hasOrder]
    (mega/setandelement.h), true once an order was assigned. *)
Definition hasOrder (e : SetElement) : bool := bool_decide (is_Some (mOrder e)).

(** Modelled from the spec: [SetElement::order] (mega/setandelement.h); an
    order that was never set reads as 0. *)
Definition order (e : SetElement) : Z := default 0%Z (mOrder e).

(** [SetElement::setOrder] *)
Definition setOrder (o : Z) (e : SetElement) : SetElement :=
  match mOrder e with
  | None => SetElement_setChanged CH_EL_ORDER (SetElement_with_mOrder (Some o) e)
  | Some cur =>
      if decide (cur ≠ o)
      then SetElement_setChanged CH_EL_ORDER (SetElement_with_mOrder (Some o) e)
      else e
  end.

(** [SetElement::updateWith(SetElement&& el)] *)
Definition SetElement_updateWith (el : SetElement) (self : SetElement)
    : bool * SetElement * SetElement :=
  let self1 := if hasOrder el then setOrder (order el) self else self in
  let self2 := SetElement_with_common (setTs (mTs (el_common el)) (el_common self1)) self1 in
  if hasAttrs (el_common el) || mAttrsClearedByLastUpdate el then
    let self3 :=
      if hasAttrChanged nameTag (mAttrs (el_common el)) (el_common self2)
      then SetElement_setChanged CH_EL_NAME self2 else self2 in
    let self4 :=
      SetElement_with_common
        (with_mAttrs (mAttrs (el_common el)) (el_common self3)) self3 in
    let el' :=
      SetElement_with_common
        (with_mAttrs (mAttrs (el_common self3)) (el_common el)) el in
    (SetElement_changes self4, self4, el')
  else (SetElement_changes self2, self2, el).

(** ** The cache format *)

(** A reader consumes a prefix of the buffer and returns the value with the
    rest of the buffer, or fails; it stands for the [ptr]/[end] pair of a
    [CacheableReader]. *)
Definition Reader (A : Type) : Type := list byte → option (A * list byte).

(** The field primitives of [CacheableWriter] and [CacheableReader]
    (mega/utils.h). A writer gives the bytes it appends to the buffer. *)
Class Cacheable := {
  serializehandle : Z → list byte;
  serializenodehandle : Z → list byte;
  serializei64 : Z → list byte;
  serializecompressed64 : Z → list byte;
  serializestring : string → list byte;
  serializeu32 : Z → list byte;
  serializeexpansionflags : list byte;
  unserializehandle : Reader Z;
  unserializenodehandle : Reader Z;
  unserializei64 : Reader Z;
  unserializecompressed64 : Reader Z;
  unserializestring : Reader string;
  unserializeu32 : Reader Z;
  unserializeexpansionflags : nat → Reader (list byte);
}.

(** What a pair of primitives owes to the other: a field that the writer
    can carry is read back, and the reader stops where the field ends.
    [nodehandle_ok] and [string_ok] delimit the node handles and the strings
    that the format carries. *)
Record CacheableLaws (C : Cacheable) (nodehandle_ok : Z → Prop)
    (string_ok : string → Prop) : Prop := {
  handle_roundtrip h rest :
    (0 ≤ h < 2 ^ 64)%Z →
    unserializehandle (serializehandle h ++ rest) = Some (h, rest);
  nodehandle_roundtrip h rest :
    nodehandle_ok h →
    unserializenodehandle (serializenodehandle h ++ rest) = Some (h, rest);
  i64_roundtrip o rest :
    (- 2 ^ 63 ≤ o < 2 ^ 63)%Z →
    unserializei64 (serializei64 o ++ rest) = Some (o, rest);
  compressed64_roundtrip ts rest :
    (0 ≤ ts < 2 ^ 64)%Z →
    unserializecompressed64 (serializecompressed64 ts ++ rest) = Some (ts, rest);
  string_roundtrip s rest :
    string_ok s →
    unserializestring (serializestring s ++ rest) = Some (s, rest);
  u32_roundtrip n rest :
    (0 ≤ n < 2 ^ 32)%Z →
    unserializeu32 (serializeu32 n ++ rest) = Some (n, rest);
  expansionflags_roundtrip rest :
    ∃ flags,
      unserializeexpansionflags 0 (serializeexpansionflags ++ rest) = Some (flags, rest);
}.

(** The order of two entries of a [std::map<string,string>]: by key. *)
Definition attr_le (a b : string * string) : Prop := String.le a.1 b.1.

#[global] Instance attr_le_dec a b : Decision (attr_le a b).
Proof. unfold attr_le. apply _. Defined.

(** The entries of a [string_map] in the order a range-for visits them. *)
Definition string_map_items (m : gmap string string) : list (string * string) :=
  merge_sort attr_le (map_to_list m).

Section Codec.
Context {C : Cacheable}.

(** The loop writing the attributes: tag, then value. *)
Fixpoint serialize_attrs (items : list (string * string)) : list byte :=
  match items with
  | [] => []
  | (tag, value) :: items' =>
      serializestring tag ++ serializestring value ++ serialize_attrs items'
  end.

(** The attribute count and the attributes, written alike by
    [Set::serialize] and [SetElement::serialize]. *)
Definition serialize_attr_block (attrs : option (gmap string string)) : list byte :=
  let asize := match attrs with Some a => size a | None => 0 end in
  serializeu32 (Z.of_nat asize mod 2 ^ 32)%Z ++
  (if decide (asize = 0) then []
   else serialize_attrs (string_map_items (default ∅ attrs))).

(** [Set::serialize] *)
Definition Set_serialize (s : Set_) (d : list byte) : bool * list byte :=
  let c := set_common s in
  (true,
   d ++ serializehandle (mId c)
     ++ serializehandle (mUser s)
     ++ serializecompressed64 (mTs c)
     ++ serializestring (mKey c)
     ++ serialize_attr_block (mAttrs c)
     ++ serializeexpansionflags).

(** The loop reading the attributes: [attrs[ak] = av], [n] times. *)
Fixpoint unserialize_attrs (n : nat) (attrs : gmap string string)
    : Reader (gmap string string) := λ d,
  match n with
  | O => Some (attrs, d)
  | S n' =>
      '(ak, d1) ← unserializestring d;
      '(av, d2) ← unserializestring d1;
      unserialize_attrs n' (<[ak := av]> attrs) d2
  end.

(** [Set::unserialize] *)
Definition Set_unserialize (d : list byte) : option Set_ :=
  '(id, d1) ← unserializehandle d;
  '(u, d2) ← unserializehandle d1;
  '(ts, d3) ← unserializecompressed64 d2;
  '(k, d4) ← unserializestring d3;
  '(attrCount, d5) ← unserializeu32 d4;
  '(attrs, d6) ← unserialize_attrs (Z.to_nat attrCount) ∅ d5;
  '(_, _) ← unserializeexpansionflags 0 d6;
  let s := Set_new id k u attrs in
  Some (Set_with_common (setTs ts (set_common s)) s).

(** [SetElement::serialize] *)
Definition SetElement_serialize (e : SetElement) (d : list byte) : bool * list byte :=
  let c := el_common e in
  (true,
   d ++ serializehandle (mSetId e)
     ++ serializehandle (mId c)
     ++ serializenodehandle (mNodeHandle e)
     ++ serializei64 (match mOrder e with Some o => o | None => 0%Z end)
     ++ serializecompressed64 (mTs c)
     ++ serializestring (mKey c)
     ++ serialize_attr_block (mAttrs c)
     ++ serializeexpansionflags).

(** [SetElement::unserialize] *)
Definition SetElement_unserialize (d : list byte) : option SetElement :=
  '(sid, d1) ← unserializehandle d;
  '(eid, d2) ← unserializehandle d1;
  '(h, d3) ← unserializenodehandle d2;
  '(o, d4) ← unserializei64 d3;
  '(ts, d5) ← unserializecompressed64 d4;
  '(k, d6) ← unserializestring d5;
  '(attrCount, d7) ← unserializeu32 d6;
  '(attrs, d8) ← unserialize_attrs (Z.to_nat attrCount) ∅ d7;
  '(_, _) ← unserializeexpansionflags 0 d8;
  let el := SetElement_new sid h eid k attrs in
  let el := setOrder o el in
  Some (SetElement_with_common (setTs ts (el_common el)) el).
End Codec.

(** ** Bytes and little-endian integers *)

(** [(byte)v]: the low eight bits. *)
Definition byte_of_Z (z : Z) : byte :=
  default x00 (Byte.of_N (Z.to_N (z mod 256))).

(** The unsigned value of a byte. *)
Definition Z_of_byte (b : byte) : Z := Z.of_N (Byte.to_N b).

(** The [n] low bytes of [z], least significant first: what appending
    the object representation of [field] gives on the little-endian hosts
    the code runs on. *)
Fixpoint le_bytes (n : nat) (z : Z) : list byte :=
  match n with
  | O => []
  | S n' => byte_of_Z z :: le_bytes n' (z / 256)
  end.

(** The unsigned value of bytes read least significant first. *)
Fixpoint le_value (bs : list byte) : Z :=
  match bs with
  | [] => 0
  | b :: bs' => Z_of_byte b + 256 * le_value bs'
  end%Z.

(** A bounds-checked read of [n] bytes: [if (ptr + n > end) return false]. *)
Definition read_bytes (n : nat) : Reader (list byte) := λ d,
  if decide (n ≤ length d) then Some (take n d, drop n d) else None.

(** ** Base64 and the cover of a Set *)

(** [Base64::atob(a, b, blen)] (mega/base64.h): the bytes that the decoder
    writes at [b], at most [blen] of them. *)
Class Base64 := atob : string → nat → list byte.

(** Modelled from the spec: [SetElement::HANDLESIZE]
    (mega/setandelement.h), the binary width of a handle. *)
Definition HANDLESIZE : nat := 8.

(** The value of a [handle] that was zero and into whose first bytes
    [written] was stored. *)
Definition handle_overwritten (written : list byte) : Z :=
  le_value (take HANDLESIZE (written ++ replicate HANDLESIZE x00)).

(** [Set::cover] *)
Definition Set_cover `{Base64} (s : Set_) : Z :=
  let hs := getAttr coverTag (set_common s) in
  if decide (hs ≠ "") then handle_overwritten (atob hs HANDLESIZE)
  else UNDEF.

(** Modelled from the spec: [Base64::from64] (mega/base64.h), the value of
    a base64 digit of the standard or of the URL-safe alphabet; [None] for
    any other character, the terminating NUL included. *)
Definition from64 (c : ascii) : option Z :=
  let n := Z.of_N (Ascii.N_of_ascii c) in
  if decide (65 ≤ n ≤ 90)%Z then Some (n - 65)%Z
  else if decide (97 ≤ n ≤ 122)%Z then Some (n - 97 + 26)%Z
  else if decide (48 ≤ n ≤ 57)%Z then Some (n - 48 + 52)%Z
  else if decide (n = 45 ∨ n = 43)%Z then Some 62%Z
  else if decide (n = 95 ∨ n = 47)%Z then Some 63%Z
  else None.

(** Modelled from the spec: the digits that [Base64::atob] takes from a
    string, up to the first character that is not one. *)
Fixpoint base64_digits (a : string) : list Z :=
  match a with
  | EmptyString => []
  | String c a' =>
      match from64 c with
      | Some v => v :: base64_digits a'
      | None => []
      end
  end.

(** Modelled from the spec: the loop of [Base64::atob] (mega/base64.h):
    four digits give three bytes; decoding stops at the first character
    that is no digit or when [blen] bytes were written. A group cut after
    its first digit sees 255 in the place of the second. *)
Fixpoint atob_digits (vs : list Z) (blen : nat) {struct vs} : list byte :=
  match blen, vs with
  | O, _ => []
  | _, [] => []
  | S _, [c0] =>
      [byte_of_Z (Z.lor (Z.shiftl c0 2) (Z.shiftr (Z.land 255 48) 4))]
  | S blen1, c0 :: c1 :: vs2 =>
      byte_of_Z (Z.lor (Z.shiftl c0 2) (Z.shiftr (Z.land c1 48) 4)) ::
      match blen1, vs2 with
      | O, _ => []
      | _, [] => []
      | S blen2, c2 :: vs3 =>
          byte_of_Z (Z.lor (Z.shiftl c1 4) (Z.shiftr (Z.land c2 60) 2)) ::
          match blen2, vs3 with
          | O, _ => []
          | _, [] => []
          | S blen3, c3 :: vs4 =>
              byte_of_Z (Z.lor (Z.shiftl c2 6) c3) :: atob_digits vs4 blen3
          end
      end
  end.

(** Modelled from the spec: [Base64::atob] (mega/base64.h). *)
Definition mega_atob : Base64 := λ a blen, atob_digits (base64_digits a) blen.

(** ** The field primitives of the cache format *)

(** Modelled from the spec: [CacheableWriter::serializehandle]
    (mega/utils.h), a fixed-width field of the eight bytes of the handle. *)
Definition mega_serializehandle (h : Z) : list byte := le_bytes 8 h.

(** Modelled from the spec: [CacheableReader::unserializehandle]
    (mega/utils.h). *)
Definition mega_unserializehandle : Reader Z := λ d,
  '(bs, d') ← read_bytes 8 d; Some (le_value bs, d').

(** Modelled from the spec: [MegaClient::NODEHANDLE], the width of the
    "node handle" format, shorter than a handle. *)
Definition NODEHANDLE : nat := 6.

(** Modelled from the spec: [CacheableWriter::serializenodehandle]
    (mega/utils.h): the first [NODEHANDLE] bytes of the handle. *)
Definition mega_serializenodehandle (h : Z) : list byte := le_bytes NODEHANDLE h.

(** Modelled from the spec: [CacheableReader::unserializenodehandle]
    (mega/utils.h): [NODEHANDLE] bytes, read into a handle that was zero. *)
Definition mega_unserializenodehandle : Reader Z := λ d,
  '(bs, d') ← read_bytes NODEHANDLE d; Some (le_value bs, d').

(** Modelled from the spec: [CacheableWriter::serializei64]
    (mega/utils.h), the eight bytes of the two's complement value. *)
Definition mega_serializei64 (o : Z) : list byte := le_bytes 8 (o mod 2 ^ 64).

(** Modelled from the spec: [CacheableReader::unserializei64]
    (mega/utils.h). *)
Definition mega_unserializei64 : Reader Z := λ d,
  '(bs, d') ← read_bytes 8 d;
  let v := le_value bs in
  Some (if decide (v < 2 ^ 63)%Z then v else (v - 2 ^ 64)%Z, d').

(** Modelled from the spec: [CacheableWriter::serializeu32]
    (mega/utils.h), a fixed-width field of four bytes. *)
Definition mega_serializeu32 (n : Z) : list byte := le_bytes 4 n.

(** Modelled from the spec: [CacheableReader::unserializeu32]
    (mega/utils.h). *)
Definition mega_unserializeu32 : Reader Z := λ d,
  '(bs, d') ← read_bytes 4 d; Some (le_value bs, d').

(** Modelled from the spec: the loop of the "compressed" integer writer
    ([Serialize64::serialize], mega/utils.h): the bytes of [v] up to its
    most significant non-zero byte. *)
Fixpoint significant_bytes (fuel : nat) (v : Z) : list byte :=
  match fuel with
  | O => []
  | S fuel' =>
      if decide (v = 0%Z) then []
      else byte_of_Z v :: significant_bytes fuel' (v / 256)
  end.

(** Modelled from the spec: [CacheableWriter::serializecompressed64]
    (mega/utils.h), the "compressed" integer: a byte counting the
    significant bytes, then these bytes. *)
Definition mega_serializecompressed64 (v : Z) : list byte :=
  let bs := significant_bytes 8 v in
  byte_of_Z (Z.of_nat (length bs)) :: bs.

(** Modelled from the spec: [CacheableReader::unserializecompressed64]
    (mega/utils.h); a count above eight or beyond the end of the buffer is
    rejected. *)
Definition mega_unserializecompressed64 : Reader Z := λ d,
  match d with
  | [] => None
  | p :: d' =>
      let n := Z.to_nat (Z_of_byte p) in
      if decide (n ≤ 8 ∧ n ≤ length d')
      then Some (le_value (take n d'), drop n d')
      else None
  end.

(** Modelled from the spec: [CacheableWriter::serializestring]
    (mega/utils.h), a length-prefixed string; the prefix is an
    [unsigned short]. *)
Definition mega_serializestring (s : string) : list byte :=
  let ll := (Z.of_nat (String.length s) mod 2 ^ 16)%Z in
  le_bytes 2 ll ++ take (Z.to_nat ll) (String.list_byte_of_string s).

(** Modelled from the spec: [CacheableReader::unserializestring]
    (mega/utils.h): the prefix, then as many bytes, each read checked
    against the end of the buffer. *)
Definition mega_unserializestring : Reader string := λ d,
  '(lb, d1) ← read_bytes 2 d;
  '(bs, d2) ← read_bytes (Z.to_nat (le_value lb)) d1;
  Some (String.string_of_list_byte bs, d2).

(** Modelled from the spec: [CacheableWriter::serializeexpansionflags]
    (mega/utils.h): eight bytes, all zero when written without arguments. *)
Definition mega_serializeexpansionflags : list byte := replicate 8 x00.

(** Modelled from the spec: [CacheableReader::unserializeexpansionflags]
    (mega/utils.h): takes eight bytes and rejects the record when a flag
    from [usedFlagCount] on is set. *)
Definition mega_unserializeexpansionflags (usedFlagCount : nat) : Reader (list byte) := λ d,
  '(field, d') ← read_bytes 8 d;
  if forallb (λ b, Byte.eqb b x00) (drop usedFlagCount field)
  then Some (field, d') else None.

(** Modelled from the spec: the field primitives of mega/utils.h, as
    modelled above. *)
Definition mega_cacheable : Cacheable := {|
  serializehandle := mega_serializehandle;
  serializenodehandle := mega_serializenodehandle;
  serializei64 := mega_serializei64;
  serializecompressed64 := mega_serializecompressed64;
  serializestring := mega_serializestring;
  serializeu32 := mega_serializeu32;
  serializeexpansionflags := mega_serializeexpansionflags;
  unserializehandle := mega_unserializehandle;
  unserializenodehandle := mega_unserializenodehandle;
  unserializei64 := mega_unserializei64;
  unserializecompressed64 := mega_unserializecompressed64;
  unserializestring := mega_unserializestring;
  unserializeu32 := mega_unserializeu32;
  unserializeexpansionflags := mega_unserializeexpansionflags;
|}.

(** The node handles that [mega_cacheable] carries: [NODEHANDLE] bytes. *)
Definition mega_nodehandle_ok (h : Z) : Prop := (0 ≤ h < 2 ^ 48)%Z.

(** The strings that [mega_cacheable] carries: the length fits the prefix. *)
Definition mega_string_ok (s : string) : Prop :=
  (Z.of_nat (String.length s) < 2 ^ 16)%Z.

(** ** Fields that fit the format *)

(** An attribute map fits when its size fits the [uint32_t] count and its
    tags and values are strings that the format carries. *)
Definition attrs_fit (string_ok : string → Prop)
    (attrs : option (gmap string string)) : Prop :=
  (Z.of_nat (size (default ∅ attrs)) < 2 ^ 32)%Z ∧
  map_Forall (λ tag value, string_ok tag ∧ string_ok value) (default ∅ attrs).

(** The shared members fit: id and timestamp in 64 bits, key and
    attributes carried by the format. *)
Definition CommonSE_fits (string_ok : string → Prop) (c : CommonSE) : Prop :=
  (0 ≤ mId c < 2 ^ 64)%Z ∧ (0 ≤ mTs c < 2 ^ 64)%Z ∧
  string_ok (mKey c) ∧ attrs_fit string_ok (mAttrs c).

(** A Set fits: its shared members and its owner. *)
Definition Set_fits (string_ok : string → Prop) (s : Set_) : Prop :=
  CommonSE_fits string_ok (set_common s) ∧ (0 ≤ mUser s < 2 ^ 64)%Z.

(** An Element fits: its shared members, the id of its Set, its node
    handle and its order, an [int64_t]. *)
Definition SetElement_fits (nodehandle_ok : Z → Prop) (string_ok : string → Prop)
    (e : SetElement) : Prop :=
  CommonSE_fits string_ok (el_common e) ∧
  (0 ≤ mSetId e < 2 ^ 64)%Z ∧
  nodehandle_ok (mNodeHandle e) ∧
  (- 2 ^ 63 ≤ order e < 2 ^ 63)%Z.

(** Two attribute maps with the same entries, an absent map counting as an
    empty one. *)
Definition same_attrs (a b : option (gmap string string)) : Prop :=
  default ∅ a = default ∅ b.

(** Equality of two Sets field for field, up to [same_attrs]. *)
Definition Set_same (a b : Set_) : Prop :=
  mId (set_common a) = mId (set_common b) ∧
  mKey (set_common a) = mKey (set_common b) ∧
  same_attrs (mAttrs (set_common a)) (mAttrs (set_common b)) ∧
  mTs (set_common a) = mTs (set_common b) ∧
  mEncryptedAttrs (set_common a) = mEncryptedAttrs (set_common b) ∧
  mUser a = mUser b ∧
  set_mChanges a = set_mChanges b.

(** Equality of two Elements field for field, up to [same_attrs]. *)
Definition SetElement_same (a b : SetElement) : Prop :=
  mId (el_common a) = mId (el_common b) ∧
  mKey (el_common a) = mKey (el_common b) ∧
  same_attrs (mAttrs (el_common a)) (mAttrs (el_common b)) ∧
  mTs (el_common a) = mTs (el_common b) ∧
  mEncryptedAttrs (el_common a) = mEncryptedAttrs (el_common b) ∧
  mSetId a = mSetId b ∧
  mNodeHandle a = mNodeHandle b ∧
  mOrder a = mOrder b ∧
  mAttrsClearedByLastUpdate a = mAttrsClearedByLastUpdate b ∧
  el_mChanges a = el_mChanges b.

(** ** Where a read can fail *)

Section ReadFailures.
Context {C : Cacheable}.

(** The attribute loop with [n] rounds to go fails on [d]: at the tag or
    at the value of the next attribute, or further on. *)
Inductive attrs_read_fails : nat → list byte → Prop :=
| attrs_fails_tag n d :
    unserializestring d = None → attrs_read_fails (S n) d
| attrs_fails_value n d ak d1 :
    unserializestring d = Some (ak, d1) →
    unserializestring d1 = None →
    attrs_read_fails (S n) d
| attrs_fails_later n d ak d1 av d2 :
    unserializestring d = Some (ak, d1) →
    unserializestring d1 = Some (av, d2) →
    attrs_read_fails n d2 →
    attrs_read_fails (S n) d.

(** The tail of both decoders, from the attribute count on. *)
Definition unserialize_attr_tail (d : list byte) : option (gmap string string) :=
  '(attrCount, d1) ← unserializeu32 d;
  '(attrs, d2) ← unserialize_attrs (Z.to_nat attrCount) ∅ d1;
  '(_, _) ← unserializeexpansionflags 0 d2;
  Some attrs.

(** The attribute count, the attributes and the expansion flags, read
    alike by both decoders: the count is short, or the loop fails, or the
    flags are short or set. *)
Inductive attr_block_read_fails (d : list byte) : Prop :=
| block_fails_count :
    unserializeu32 d = None → attr_block_read_fails d
| block_fails_attrs attrCount d1 :
    unserializeu32 d = Some (attrCount, d1) →
    attrs_read_fails (Z.to_nat attrCount) d1 →
    attr_block_read_fails d
| block_fails_flags attrCount d1 attrs d2 :
    unserializeu32 d = Some (attrCount, d1) →
    unserialize_attrs (Z.to_nat attrCount) ∅ d1 = Some (attrs, d2) →
    unserializeexpansionflags 0 d2 = None →
    attr_block_read_fails d.

(** [Set::unserialize] meets a failing read on [d], at the named field. *)
Inductive Set_read_fails (d : list byte) : Prop :=
| Set_fails_id :
    unserializehandle d = None → Set_read_fails d
| Set_fails_user id d1 :
    unserializehandle d = Some (id, d1) →
    unserializehandle d1 = None →
    Set_read_fails d
| Set_fails_ts id d1 u d2 :
    unserializehandle d = Some (id, d1) →
    unserializehandle d1 = Some (u, d2) →
    unserializecompressed64 d2 = None →
    Set_read_fails d
| Set_fails_key id d1 u d2 ts d3 :
    unserializehandle d = Some (id, d1) →
    unserializehandle d1 = Some (u, d2) →
    unserializecompressed64 d2 = Some (ts, d3) →
    unserializestring d3 = None →
    Set_read_fails d
| Set_fails_block id d1 u d2 ts d3 k d4 :
    unserializehandle d = Some (id, d1) →
    unserializehandle d1 = Some (u, d2) →
    unserializecompressed64 d2 = Some (ts, d3) →
    unserializestring d3 = Some (k, d4) →
    attr_block_read_fails d4 →
    Set_read_fails d.

(** [SetElement::unserialize] meets a failing read on [d], at the named
    field. *)
Inductive SetElement_read_fails (d : list byte) : Prop :=
| El_fails_set :
    unserializehandle d = None → SetElement_read_fails d
| El_fails_id sid d1 :
    unserializehandle d = Some (sid, d1) →
    unserializehandle d1 = None →
    SetElement_read_fails d
| El_fails_node sid d1 eid d2 :
    unserializehandle d = Some (sid, d1) →
    unserializehandle d1 = Some (eid, d2) →
    unserializenodehandle d2 = None →
    SetElement_read_fails d
| El_fails_order sid d1 eid d2 h d3 :
    unserializehandle d = Some (sid, d1) →
    unserializehandle d1 = Some (eid, d2) →
    unserializenodehandle d2 = Some (h, d3) →
    unserializei64 d3 = None →
    SetElement_read_fails d
| El_fails_ts sid d1 eid d2 h d3 o d4 :
    unserializehandle d = Some (sid, d1) →
    unserializehandle d1 = Some (eid, d2) →
    unserializenodehandle d2 = Some (h, d3) →
    unserializei64 d3 = Some (o, d4) →
    unserializecompressed64 d4 = None →
    SetElement_read_fails d
| El_fails_key sid d1 eid d2 h d3 o d4 ts d5 :
    unserializehandle d = Some (sid, d1) →
    unserializehandle d1 = Some (eid, d2) →
    unserializenodehandle d2 = Some (h, d3) →
    unserializei64 d3 = Some (o, d4) →
    unserializecompressed64 d4 = Some (ts, d5) →
    unserializestring d5 = None →
    SetElement_read_fails d
| El_fails_block sid d1 eid d2 h d3 o d4 ts d5 k d6 :
    unserializehandle d = Some (sid, d1) →
    unserializehandle d1 = Some (eid, d2) →
    unserializenodehandle d2 = Some (h, d3) →
    unserializei64 d3 = Some (o, d4) →
    unserializecompressed64 d4 = Some (ts, d5) →
    unserializestring d5 = Some (k, d6) →
    attr_block_read_fails d6 →
    SetElement_read_fails d.
End ReadFailures.

(** ** Sample objects *)

(** A Set named "A" whose cover attribute is too short for a handle. *)
Definition sample_set : Set_ :=
  Set_new 1 "key" 7 (<["n" := "A"]> (<["c" := "AA"]> ∅)).

(** An Element named "A", as constructed: no order assigned yet. *)
Definition sample_element : SetElement :=
  SetElement_new 1 2 3 "k" (<["n" := "A"]> ∅).

(** An update of an Element that carries no attributes. *)
Definition sample_update (cleared : bool) : SetElement :=
  {| el_common := {| mId := 3; mKey := "k"; mAttrs := None; mTs := 1700000000;
                     mEncryptedAttrs := None |};
     mSetId := 1; mNodeHandle := 2; mOrder := None;
     mAttrsClearedByLastUpdate := cleared; el_mChanges := 0 |}.

(** An object whose attributes arrived encrypted. *)
Definition sample_encrypted (blob : string) : CommonSE :=
  {| mId := 1; mKey := "key"; mAttrs := None; mTs := 0;
     mEncryptedAttrs := Some blob |}.

(** A decrypt callback that counts its calls and always fails. *)
Definition failing_decrypt : @decryptFn nat :=
  λ _ _ out calls, (false, out, S calls).

(** The record of [sample_set] cut in the middle of its key. *)
Definition truncated_set_record : list byte :=
  take 20 (Set_serialize (C := mega_cacheable) sample_set []).2.

(** A record of an Element whose count announces four attributes where
    one was written: set 1, element 3, node 2, order 0, timestamp 0, key
    "k", count 4, the attribute "n" = "A", the expansion flags. The eight
    flag bytes read as two more attributes of empty tag and value; the
    fourth tag is beyond the end. *)
Definition miscounted_element_record : list byte :=
  [x01; x00; x00; x00; x00; x00; x00; x00;
   x03; x00; x00; x00; x00; x00; x00; x00;
   x02; x00; x00; x00; x00; x00;
   x00; x00; x00; x00; x00; x00; x00; x00;
   x00;
   x01; x00; x6b;
   x04; x00; x00; x00;
   x01; x00; x6e; x01; x00; x41;
   x00; x00; x00; x00; x00; x00; x00; x00].

(** The example of the delete marker: the local map marks "n" as deleted,
    the base defines "n" and "c". *)
Definition sample_deleting : CommonSE := CommonSE_new 1 "k" (<["n" := ""]> ∅).

(** The base of that example. *)
Definition sample_base : gmap string string := <["n" := "x"]> (<["c" := "y"]> ∅).

(** A local map that names the object, and a base that only has a cover. *)
Definition sample_named : CommonSE := CommonSE_new 1 "k" (<["n" := "A"]> ∅).

(** A base that only has a cover. *)
Definition sample_cover_base : gmap string string := <["c" := "y"]> ∅.

(** An Element whose order is 5. *)
Definition sample_ordered : SetElement :=
  SetElement_with_mOrder (Some 5%Z) sample_element.

(** ** Writing the cover of a Set *)

(** [Base64::btoa(b, blen, a)] (mega/base64.h), through which
    [Base64Str] turns the bytes of a handle into text. *)
Class Base64Enc := btoa : list byte → string.

(** [Set::setCover] *)
Definition Set_setCover `{Base64Enc} (h : Z) (s : Set_) : Set_ :=
  if decide (h = UNDEF)
  then Set_with_common (setAttr coverTag "" (set_common s)) s
  else Set_with_common
         (setAttr coverTag (btoa (le_bytes HANDLESIZE h)) (set_common s)) s.

(** Modelled from the spec: [Base64::to64] (mega/base64.h), the digit of
    the URL-safe alphabet for the six low bits of [c]. *)
Definition to64 (c : Z) : ascii :=
  let c := Z.land c 63 in
  ascii_of_N (Z.to_N
    (if decide (c < 26)%Z then c + 65
     else if decide (c < 52)%Z then c - 26 + 97
     else if decide (c < 62)%Z then c - 52 + 48
     else if decide (c = 62)%Z then 45
     else 95)%Z).

(** Modelled from the spec: the loop of [Base64::btoa] (mega/base64.h):
    three bytes give four digits, a last group of one or two bytes gives
    two or three, without padding. *)
Fixpoint btoa_bytes (b : list byte) : string :=
  match b with
  | [] => ""
  | [b0] =>
      String (to64 (Z.shiftr (Z_of_byte b0) 2))
        (String (to64 (Z.lor (Z.shiftl (Z_of_byte b0) 4) (Z.shiftr 0 4))) "")
  | [b0; b1] =>
      String (to64 (Z.shiftr (Z_of_byte b0) 2))
        (String (to64 (Z.lor (Z.shiftl (Z_of_byte b0) 4) (Z.shiftr (Z_of_byte b1) 4)))
           (String (to64 (Z.lor (Z.shiftl (Z_of_byte b1) 2) (Z.shiftr 0 6))) ""))
  | b0 :: b1 :: b2 :: b' =>
      String (to64 (Z.shiftr (Z_of_byte b0) 2))
        (String (to64 (Z.lor (Z.shiftl (Z_of_byte b0) 4) (Z.shiftr (Z_of_byte b1) 4)))
           (String (to64 (Z.lor (Z.shiftl (Z_of_byte b1) 2) (Z.shiftr (Z_of_byte b2) 6)))
              (String (to64 (Z_of_byte b2)) (btoa_bytes b'))))
  end.

(** Modelled from the spec: [Base64::btoa] (mega/base64.h). *)
Definition mega_btoa : Base64Enc := btoa_bytes.

(** ** Node tree processors (src/treeproc.cpp) *)

Module TreeProc.

(** The [changed] flags of a node that the processors set. *)
Record NodeChanged := mkNodeChanged {
  removed : bool;
  attrs : bool;
}.

(** The members of a [Node] that the processors read or write; a
    [shared_ptr<Node>] is passed as the node and handed back updated. *)
Record Node := mkNode {
  nodehandle : Z;
  owner : Z;
  type : Z;
  foreignkey : bool;
  attrstring : option string;
  changed : NodeChanged;
}.

(** Assignment to [foreignkey]. *)
Definition with_foreignkey (b : bool) (n : Node) : Node :=
  {| nodehandle := nodehandle n; owner := owner n; type := type n;
     foreignkey := b; attrstring := attrstring n; changed := changed n |}.

(** Assignment to the [changed] flags. *)
Definition with_changed (c : NodeChanged) (n : Node) : Node :=
  {| nodehandle := nodehandle n; owner := owner n; type := type n;
     foreignkey := foreignkey n; attrstring := attrstring n; changed := c |}.

(** What a processor asks of the other parts of the client, in the order
    of the calls: [mNodeManager.notifyNode(n)] with the node as it is then,
    and [useralerts.noteSharedNode(user, type, 0, n)]. *)
Inductive ClientCall :=
| notifyNode (n : Node)
| noteSharedNode (user : Z) (type : Z) (ts : Z) (n : Node).

(** The members of [MegaClient] that the processors use, and the calls
    made so far, oldest first. *)
Record MegaClient := mkMegaClient {
  me : Z;
  nodekeyrewrite : list Z;
  calls : list ClientCall;
}.

(** Assignment to [nodekeyrewrite]. *)
Definition with_nodekeyrewrite (l : list Z) (c : MegaClient) : MegaClient :=
  {| me := me c; nodekeyrewrite := l; calls := calls c |}.

(** One more call recorded. *)
Definition call (e : ClientCall) (c : MegaClient) : MegaClient :=
  {| me := me c; nodekeyrewrite := nodekeyrewrite c; calls := calls c ++ [e] |}.

(** [TreeProcForeignKeys::proc] *)
Definition TreeProcForeignKeys_proc (client : MegaClient) (n : Node)
    : MegaClient * Node :=
  if foreignkey n then
    (with_nodekeyrewrite (nodekeyrewrite client ++ [nodehandle n]) client,
     with_foreignkey false n)
  else (client, n).

(** One processor applied to the nodes of a walk, in the order of the
    walk; [st] is what the processor works on besides the node. *)
Fixpoint walk {St N : Type} (proc : St → N → St * N)
    (st : St) (nodes : list N) : St * list N :=
  match nodes with
  | [] => (st, [])
  | n :: nodes' =>
      let '(st1, n') := proc st n in
      let '(st2, done) := walk proc st1 nodes' in
      (st2, n' :: done)
  end.

(** Modelled from the spec: the macro [ISUNDEF] (mega/types.h): the handle
    is the undefined sentinel, the 64-bit value that wraps to 0 when
    incremented. *)
Definition ISUNDEF (h : Z) : bool := bool_decide (((h + 1) mod 2 ^ 64)%Z = 0%Z).

(** The state of a [TreeProcDel]. *)
Record TreeProcDel := mkTreeProcDel {
  mOriginatingUser : Z;
}.

(** [TreeProcDel::setOriginatingUser] *)
Definition setOriginatingUser (h : Z) (tp : TreeProcDel) : TreeProcDel :=
  {| mOriginatingUser := h |}.

(** [TreeProcDel::proc] *)
Definition TreeProcDel_proc (tp : TreeProcDel) (client : MegaClient) (n : Node)
    : MegaClient * Node :=
  let n1 := with_changed {| removed := true; attrs := attrs (changed n) |} n in
  let client1 := call (notifyNode n1) client in
  let userHandle :=
    if ISUNDEF (mOriginatingUser tp) then owner n1 else mOriginatingUser tp in
  if decide (userHandle ≠ me client1)
  then (call (noteSharedNode userHandle (type n1) 0 n1) client1, n1)
  else (client1, n1).

(** [TreeProcApplyKey::proc]; [applykey] stands for [Node::applykey], which
    is not part of the file. *)
Definition TreeProcApplyKey_proc (applykey : Node → Node)
    (client : MegaClient) (n : Node) : MegaClient * Node :=
  match attrstring n with
  | Some _ =>
      let n1 := applykey n in
      match attrstring n1 with
      | None =>
          let n2 := with_changed {| removed := removed (changed n1); attrs := true |} n1 in
          (call (notifyNode n2) client, n2)
      | Some _ => (client, n1)
      end
  | None => (client, n)
  end.

(** A [LocalNode]: which object it is, and the [Sync] it belongs to; a
    [Sync] is known by its identity, as the pointers compared in the
    code are. *)
Record LocalNode := mkLocalNode {
  ident : Z;
  sync : Z;
}.

(** The calls on the state caches: [sync->statecachedel(localnode)] and
    [sync->statecacheadd(localnode)]. *)
Inductive CacheCall :=
| statecachedel (s : Z) (l : LocalNode)
| statecacheadd (s : Z) (l : LocalNode).

(** The state of a [LocalTreeProcMove], and the calls it made so far. *)
Record LocalTreeProcMove := mkLocalTreeProcMove {
  newsync : Z;
  nc : Z;
  cache_calls : list CacheCall;
}.

(** The constructor of [LocalTreeProcMove], given the new [Sync]. *)
Definition LocalTreeProcMove_new (s : Z) : LocalTreeProcMove :=
  {| newsync := s; nc := 0; cache_calls := [] |}.

(** [LocalTreeProcMove::proc]. The counter [nc] is an [int]; its overflow
    is not modelled, and what is proved of it is stated below [2 ^ 31]. *)
Definition LocalTreeProcMove_proc (tp : LocalTreeProcMove) (localnode : LocalNode)
    : LocalTreeProcMove * LocalNode :=
  if decide (newsync tp ≠ sync localnode) then
    let moved := {| ident := ident localnode; sync := newsync tp |} in
    ({| newsync := newsync tp; nc := (nc tp + 1)%Z;
        cache_calls := cache_calls tp
                         ++ [statecachedel (sync localnode) localnode;
                             statecacheadd (newsync tp) moved] |},
     moved)
  else
    ({| newsync := newsync tp; nc := (nc tp + 1)%Z;
        cache_calls := cache_calls tp |},
     localnode).

End TreeProc.

(** ** More sample objects *)

(** A decrypt callback that counts its calls and yields the name "A". *)
Definition succeeding_decrypt : @decryptFn nat :=
  λ _ _ out calls, (true, <["n" := "A"]> out, S calls).

(** The handle 0x0123456789abcdef. *)
Definition sample_handle : Z := 81985529216486895%Z.

(** A record that lists the tag "n" twice. *)
Definition sample_repeated_items : list (string * string) :=
  [("n", "A"); ("n", "B")].

(** A node owned by user 8, and a client that is user 7. *)
Definition sample_node : TreeProc.Node :=
  {| TreeProc.nodehandle := 42; TreeProc.owner := 8; TreeProc.type := 1;
     TreeProc.foreignkey := true; TreeProc.attrstring := None;
     TreeProc.changed := {| TreeProc.removed := false; TreeProc.attrs := false |} |}.

(** The client of that example. *)
Definition sample_client : TreeProc.MegaClient :=
  {| TreeProc.me := 7; TreeProc.nodekeyrewrite := []; TreeProc.calls := [] |}.

(** Two local nodes, one of them in the [Sync] 2 already. *)
Definition sample_localnodes : list TreeProc.LocalNode :=
  [{| TreeProc.ident := 1; TreeProc.sync := 1 |};
   {| TreeProc.ident := 2; TreeProc.sync := 2 |}].

(** ** Readers and the bytes they consume *)

(** The reader that consumes nothing. *)
Definition reader_ret {A : Type} (v : A) : Reader A := λ d, Some (v, d).

(** One read after the other, the second from where the first stopped. *)
Definition reader_bind {A B : Type} (r : Reader A) (k : A → Reader B) : Reader B :=
  λ d, match r d with
       | Some (v, d1) => k v d1
       | None => None
       end.

(** A reader is strict when a successful read consumed a prefix [w] of the
    buffer, reads the same value from [w] whatever follows it, and fails on
    [w] cut short anywhere. *)
Definition reader_strict {A : Type} (r : Reader A) : Prop :=
  ∀ d v d', r d = Some (v, d') →
    ∃ w, d = w ++ d' ∧
      (∀ x, r (w ++ x) = Some (v, x)) ∧
      (∀ n, n < length w → r (take n w) = None).

(** What the readers owe to their input: each is strict, a string takes at
    least one byte, and the expansion flags take at least the bytes that
    the writer gives them. *)
Record CacheableStrict (C : Cacheable) : Prop := {
  handle_strict : reader_strict unserializehandle;
  nodehandle_strict : reader_strict unserializenodehandle;
  i64_strict : reader_strict unserializei64;
  compressed64_strict : reader_strict unserializecompressed64;
  string_strict : reader_strict unserializestring;
  u32_strict : reader_strict unserializeu32;
  expansionflags_strict used : reader_strict (unserializeexpansionflags used);
  string_consumes d s d' :
    unserializestring d = Some (s, d') → length d' < length d;
  expansionflags_consumes used d flags d' :
    unserializeexpansionflags used d = Some (flags, d') →
    length d' + length serializeexpansionflags ≤ length d;
}.

Section Records.
Context {C : Cacheable}.

(** [Set::unserialize] as a reader: the same reads in the same order,
    handing back the bytes left after the expansion flags. *)
Definition Set_read : Reader Set_ :=
  reader_bind unserializehandle (λ id,
  reader_bind unserializehandle (λ u,
  reader_bind unserializecompressed64 (λ ts,
  reader_bind unserializestring (λ k,
  reader_bind unserializeu32 (λ attrCount,
  reader_bind (unserialize_attrs (Z.to_nat attrCount) ∅) (λ attrs,
  reader_bind (unserializeexpansionflags 0) (λ _,
  reader_ret
    (let s := Set_new id k u attrs in
     Set_with_common (setTs ts (set_common s)) s)))))))).

(** [SetElement::unserialize] as a reader. *)
Definition SetElement_read : Reader SetElement :=
  reader_bind unserializehandle (λ sid,
  reader_bind unserializehandle (λ eid,
  reader_bind unserializenodehandle (λ h,
  reader_bind unserializei64 (λ o,
  reader_bind unserializecompressed64 (λ ts,
  reader_bind unserializestring (λ k,
  reader_bind unserializeu32 (λ attrCount,
  reader_bind (unserialize_attrs (Z.to_nat attrCount) ∅) (λ attrs,
  reader_bind (unserializeexpansionflags 0) (λ _,
  reader_ret
    (let el := setOrder o (SetElement_new sid h eid k attrs) in
     SetElement_with_common (setTs ts (el_common el)) el)))))))))).

(** The bytes that [Set::serialize] writes for [s], but for the count
    field, which holds [count]. *)
Definition Set_record_counted (s : Set_) (count : Z) : list byte :=
  let c := set_common s in
  serializehandle (mId c)
    ++ serializehandle (mUser s)
    ++ serializecompressed64 (mTs c)
    ++ serializestring (mKey c)
    ++ serializeu32 count
    ++ serialize_attrs (string_map_items (default ∅ (mAttrs c)))
    ++ serializeexpansionflags.

(** The bytes that [SetElement::serialize] writes for [e], but for the
    count field, which holds [count]. *)
Definition SetElement_record_counted (e : SetElement) (count : Z) : list byte :=
  let c := el_common e in
  serializehandle (mSetId e)
    ++ serializehandle (mId c)
    ++ serializenodehandle (mNodeHandle e)
    ++ serializei64 (match mOrder e with Some o => o | None => 0%Z end)
    ++ serializecompressed64 (mTs c)
    ++ serializestring (mKey c)
    ++ serializeu32 count
    ++ serialize_attrs (string_map_items (default ∅ (mAttrs c)))
    ++ serializeexpansionflags.
End Records.

(** A Set with one attribute, of empty tag and empty value. *)
Definition sample_blank_set : Set_ := Set_new 1 "k" 7 (<["" := ""]> ∅).

(** The record of [sample_blank_set] with the count 0 where 1 was due. *)
Definition undercounted_set_record : list byte :=
  Set_record_counted (C := mega_cacheable) sample_blank_set 0%Z.

(** An update of an Element whose attribute map is allocated and empty,
    such as a decoded Element without attributes is. *)
Definition sample_update_empty : SetElement :=
  {| el_common := {| mId := 3; mKey := "k"; mAttrs := Some ∅; mTs := 1700000000;
                     mEncryptedAttrs := None |};
     mSetId := 1; mNodeHandle := 2; mOrder := None;
     mAttrsClearedByLastUpdate := false; el_mChanges := 0 |}.

(** * Properties *)

(** ** Change bits *)

Lemma mask_test_set `{ChangeType A} (c : A) (mask : Z) :
  (0 ≤ change_bit c)%Z → mask_test c (mask_set c mask) = true.
Proof.
  intros Hc. unfold mask_test, mask_set.
  rewrite Z.lor_spec, Z.shiftl_spec by done.
  rewrite Z.sub_diag. simpl. apply orb_true_r.
Qed.

Lemma SetElement_hasChanged_setChanged (ch : SetElementChange) (e : SetElement) :
  SetElement_hasChanged ch (SetElement_setChanged ch e) = true.
Proof.
  unfold SetElement_hasChanged, SetElement_setChanged; simpl.
  apply mask_test_set. by destruct ch.
Qed.

(** ** Ordering of an Element *)

(** C8. [setOrder v] on an Element without order installs [v] and marks
    [CH_EL_ORDER], whatever [v] is, 0 included; on an Element whose order
    is another value it stores [v] and marks the bit; on an Element whose
    order is [v] already it changes nothing, the change bits included. *)
Theorem setOrder_first_differs_same (v : Z) (e : SetElement) :
  (mOrder e = None →
     mOrder (setOrder v e) = Some v ∧
     SetElement_hasChanged CH_EL_ORDER (setOrder v e) = true) ∧
  (∀ cur, mOrder e = Some cur → cur ≠ v →
     mOrder (setOrder v e) = Some v ∧
     SetElement_hasChanged CH_EL_ORDER (setOrder v e) = true) ∧
  (mOrder e = Some v → setOrder v e = e).
Proof.
  unfold setOrder. split; [|split].
  - intros ->. split; [done|]. apply SetElement_hasChanged_setChanged.
  - intros cur -> Hne. rewrite decide_True by done.
    split; [done|]. apply SetElement_hasChanged_setChanged.
  - intros ->. rewrite decide_False; [done|]. intros Hne. by apply Hne.
Qed.

(** ** Merging an update *)

(** C6. After [Set::updateWith(incoming)] the timestamp is the incoming
    one, whatever it was before, and id, owner and key are those of before
    the call. *)
Theorem Set_updateWith_ts_identity (incoming self : Set_) :
  let self' := (Set_updateWith incoming self).1.2 in
  mTs (set_common self') = mTs (set_common incoming) ∧
  mId (set_common self') = mId (set_common self) ∧
  mUser self' = mUser self ∧
  mKey (set_common self') = mKey (set_common self).
Proof.
  unfold Set_updateWith; simpl.
  repeat (case_match; simpl); done.
Qed.

(** An incoming Element without attribute map ([hasAttrs] false): when its
    cleared-by-last-update flag is off, [SetElement::updateWith] leaves the
    local attributes as they are; when the flag is on, the local attributes
    become the incoming ones, that is none. *)
Theorem SetElement_updateWith_attrs_retained (incoming self : SetElement) :
  hasAttrs (el_common incoming) = false →
  let self' := (SetElement_updateWith incoming self).1.2 in
  (mAttrsClearedByLastUpdate incoming = false →
     mAttrs (el_common self') = mAttrs (el_common self)) ∧
  (mAttrsClearedByLastUpdate incoming = true →
     mAttrs (el_common self') = mAttrs (el_common incoming) ∧
     mAttrs (el_common self') = None ∧
     ∀ tag, getAttr tag (el_common self') = "").
Proof.
  intros Hno. unfold SetElement_updateWith. rewrite Hno.
  assert (mAttrs (el_common incoming) = None) as Hnone.
  { unfold hasAttrs in Hno. apply bool_decide_eq_false in Hno.
    destruct (mAttrs (el_common incoming)); [|done].
    exfalso. apply Hno. eauto. }
  split; intros ->; simpl.
  - unfold setOrder. repeat (case_match; simpl); done.
  - rewrite Hnone. repeat split; repeat (case_match; simpl); try done.
    all: intros tag; unfold getAttr; simpl; done.
Qed.

(** ** Decrypting the attributes *)

Section DecryptProperties.
Context {W : Type}.
Implicit Types (f : @decryptFn W) (c : CommonSE) (w : W).

(** C4. With a non-empty encrypted blob, a callback that reports failure
    makes [decryptAttributes] return false and leaves the object as it
    was: blob, attribute map and every other field. *)
Theorem decryptAttributes_failure_inert f c w (blob : string) :
  mEncryptedAttrs c = Some blob →
  blob ≠ "" →
  (f blob (mKey c) ∅ w).1.1 = false →
  (decryptAttributes f c w).1 = (false, c) ∧
  mEncryptedAttrs (decryptAttributes f c w).1.2 = Some blob ∧
  mAttrs (decryptAttributes f c w).1.2 = mAttrs c.
Proof.
  intros Henc Hne Hfail. unfold decryptAttributes. rewrite Henc.
  rewrite decide_False by done.
  destruct (f blob (mKey c) ∅ w) as [[ok newAttrs] w'] eqn:Hf.
  simpl in Hfail. subst ok. simpl. by rewrite Henc.
Qed.

(** C9. With an encrypted blob that is present and empty,
    [decryptAttributes] returns true whatever the callback is and leaves
    the world of the callback untouched (the callback is not run); the
    attribute map is then present and empty, the blob is gone and the
    other fields are as before. *)
Theorem decryptAttributes_empty_blob f c w :
  mEncryptedAttrs c = Some "" →
  let '(ok, c', w') := decryptAttributes f c w in
  ok = true ∧ w' = w ∧
  mAttrs c' = Some ∅ ∧ mEncryptedAttrs c' = None ∧
  mId c' = mId c ∧ mKey c' = mKey c ∧ mTs c' = mTs c.
Proof.
  intros Henc. unfold decryptAttributes. rewrite Henc. simpl. done.
Qed.
End DecryptProperties.

(** ** Rebasing the attributes *)

(** What the loop of [rebaseCommonAttrsOn] leaves under a tag. *)
Lemma rebase_fold_lookup (base attrs : gmap string string) (tag : string) :
  map_fold rebase_step base attrs !! tag =
  match attrs !! tag with
  | Some v => if decide (v = "") then None else Some v
  | None => base !! tag
  end.
Proof.
  revert tag.
  apply (map_fold_weak_ind (λ r m, ∀ tag, r !! tag =
    match m !! tag with
    | Some v => if decide (v = "") then None else Some v
    | None => base !! tag
    end)).
  - intros tag. by rewrite lookup_empty.
  - intros k v m r Hnone IH tag. unfold rebase_step.
    destruct (decide (k = tag)) as [->|Hne].
    + rewrite lookup_insert_eq. destruct (decide (v = "")).
      * by rewrite lookup_delete_eq.
      * by rewrite lookup_insert_eq.
    + rewrite (lookup_insert_ne m) by done. rewrite <- IH.
      destruct (decide (v = "")).
      * by rewrite lookup_delete_ne.
      * by rewrite lookup_insert_ne.
Qed.

(** The attribute read under [tag] after a rebase on an allocated base;
    the shortcut taken for an empty local map agrees with the loop. *)
Lemma rebase_lookup (base : gmap string string) (c : CommonSE) (tag : string) :
  default ∅ (mAttrs (rebaseCommonAttrsOn (Some base) c)) !! tag =
  match default ∅ (mAttrs c) !! tag with
  | Some v => if decide (v = "") then None else Some v
  | None => base !! tag
  end.
Proof.
  unfold rebaseCommonAttrsOn; simpl.
  set (attrs := default ∅ (mAttrs c)).
  assert ((if decide (attrs = ∅) then base else map_fold rebase_step base attrs)
          = map_fold rebase_step base attrs) as ->.
  { destruct (decide (attrs = ∅)) as [->|]; [|done]. by rewrite map_fold_empty. }
  rewrite <- rebase_fold_lookup.
  destruct (decide (map_fold rebase_step base attrs = ∅)) as [->|]; done.
Qed.

(** A rebase on an allocated base never leaves an allocated empty map. *)
Lemma rebase_normalized (base : gmap string string) (c : CommonSE) :
  mAttrs (rebaseCommonAttrsOn (Some base) c) ≠ Some ∅.
Proof.
  unfold rebaseCommonAttrsOn; simpl.
  case_decide; [done|]. congruence.
Qed.

Lemma rebase_other_fields (baseAttrs : option (gmap string string)) (c : CommonSE) :
  rebaseCommonAttrsOn baseAttrs c =
  with_mAttrs (mAttrs (rebaseCommonAttrsOn baseAttrs c)) c.
Proof. destruct baseAttrs; [done|]. by destruct c. Qed.

(** The local map and the base are compatible when the base defines no tag
    that the local map marks as deleted (holds with an empty value) and
    gives no empty value to a tag that the local map lacks. *)
Definition rebase_stable (baseAttrs : option (gmap string string)) (c : CommonSE) : Prop :=
  match baseAttrs with
  | None => True
  | Some base =>
      ∀ tag,
        match default ∅ (mAttrs c) !! tag with
        | Some v => v = "" → base !! tag = None
        | None => base !! tag ≠ Some ""
        end
  end.

(** C3, as the code has it. Rebasing a second time on the same base gives
    the object of the first rebase exactly when the base defines no tag
    that the local map marks as deleted and gives no empty value to a tag
    absent from the local map. *)
Theorem rebase_twice_iff (baseAttrs : option (gmap string string)) (c : CommonSE) :
  rebaseCommonAttrsOn baseAttrs (rebaseCommonAttrsOn baseAttrs c)
    = rebaseCommonAttrsOn baseAttrs c
  ↔ rebase_stable baseAttrs c.
Proof.
  destruct baseAttrs as [base|]; [|done].
  set (c1 := rebaseCommonAttrsOn (Some base) c).
  assert (rebaseCommonAttrsOn (Some base) c1 = c1 ↔
          ∀ tag, default ∅ (mAttrs (rebaseCommonAttrsOn (Some base) c1)) !! tag
                 = default ∅ (mAttrs c1) !! tag) as ->.
  { split; [by intros ->|]. intros Hlook.
    apply map_eq in Hlook.
    pose proof (rebase_normalized base c1) as Hn2.
    pose proof (rebase_normalized base c) as Hn1. fold c1 in Hn1.
    rewrite (rebase_other_fields (Some base) c1).
    assert (mAttrs (rebaseCommonAttrsOn (Some base) c1) = mAttrs c1) as ->.
    { destruct (mAttrs (rebaseCommonAttrsOn (Some base) c1)) as [m2|],
        (mAttrs c1) as [m1|]; simpl in Hlook; congruence. }
    by destruct c1. }
  unfold rebase_stable. split; intros H tag; specialize (H tag).
  - rewrite rebase_lookup in H. unfold c1 in H. rewrite rebase_lookup in H.
    destruct (default ∅ (mAttrs c) !! tag) as [v|].
    + intros ->. by rewrite decide_True in H.
    + intros Hb. rewrite Hb in H. by rewrite decide_True in H.
  - rewrite rebase_lookup. unfold c1. rewrite rebase_lookup.
    destruct (default ∅ (mAttrs c) !! tag) as [v|].
    + destruct (decide (v = "")) as [->|Hv]; [by rewrite H|].
      by rewrite decide_False.
    + destruct (base !! tag) as [b|]; [|done].
      rewrite decide_False; [done|]. intros ->. by apply H.
Qed.

(** ** Bytes *)

Lemma Z_of_byte_range (b : byte) : (0 ≤ Z_of_byte b < 256)%Z.
Proof.
  unfold Z_of_byte. pose proof (Byte.to_N_bounded b). lia.
Qed.

Lemma Z_of_byte_of_Z (z : Z) : Z_of_byte (byte_of_Z z) = (z mod 256)%Z.
Proof.
  unfold Z_of_byte, byte_of_Z.
  pose proof (Z.mod_pos_bound z 256 eq_refl) as Hr.
  destruct (Byte.of_N (Z.to_N (z mod 256))) as [b|] eqn:Hb; simpl.
  - apply Byte.to_of_N in Hb. rewrite Hb. lia.
  - apply Byte.of_N_None_iff in Hb. lia.
Qed.

Lemma byte_of_Z_of_byte (b : byte) : byte_of_Z (Z_of_byte b) = b.
Proof.
  unfold byte_of_Z. pose proof (Z_of_byte_range b).
  rewrite Z.mod_small by done.
  unfold Z_of_byte. rewrite N2Z.id. by rewrite Byte.of_to_N.
Qed.

Lemma length_le_bytes (n : nat) (z : Z) : length (le_bytes n z) = n.
Proof. revert z. induction n as [|n IH]; intros z; simpl; [done|]. by rewrite IH. Qed.

Lemma le_value_range (bs : list byte) : (0 ≤ le_value bs < 256 ^ Z.of_nat (length bs))%Z.
Proof.
  induction bs as [|b bs IH]; simpl le_value; simpl length.
  - simpl. lia.
  - rewrite Nat2Z.inj_succ, Z.pow_succ_r by lia.
    pose proof (Z_of_byte_range b). lia.
Qed.

Lemma le_value_le_bytes (n : nat) (z : Z) :
  (0 ≤ z < 256 ^ Z.of_nat n)%Z → le_value (le_bytes n z) = z.
Proof.
  revert z. induction n as [|n IH]; intros z Hz.
  - simpl in *. lia.
  - rewrite Nat2Z.inj_succ, Z.pow_succ_r in Hz by lia.
    simpl. rewrite Z_of_byte_of_Z, IH.
    + pose proof (Z.div_mod z 256). lia.
    + split; [apply Z.div_pos; lia|]. apply Z.div_lt_upper_bound; lia.
Qed.

Lemma le_value_app_zeros (bs : list byte) (n : nat) :
  le_value (bs ++ replicate n x00) = le_value bs.
Proof.
  induction bs as [|b bs IH]; simpl.
  - induction n as [|n IHn]; simpl; [done|]. rewrite IHn. done.
  - by rewrite IH.
Qed.

Lemma read_bytes_app (bs rest : list byte) :
  read_bytes (length bs) (bs ++ rest) = Some (bs, rest).
Proof.
  unfold read_bytes. rewrite decide_True by (rewrite length_app; lia).
  by rewrite take_app_length, drop_app_length.
Qed.

(** ** The cover of a Set *)

Lemma handle_overwritten_short (written : list byte) :
  length written < HANDLESIZE →
  handle_overwritten written = le_value written.
Proof.
  intros Hlen. unfold handle_overwritten.
  rewrite take_app_ge by lia.
  rewrite take_replicate. apply le_value_app_zeros.
Qed.

(** C7, as the code has it. A cover attribute that is absent or empty gives
    [UNDEF]. A cover attribute that is not empty gives the handle that the
    decoder leaves in a zeroed buffer, whatever number of bytes it wrote:
    with fewer than [HANDLESIZE] bytes written, the handle is the value of
    these bytes, the others being zero, and it is not [UNDEF]. *)
Theorem Set_cover_absent_or_short `{Base64} (s : Set_) :
  (getAttr coverTag (set_common s) = "" → Set_cover s = UNDEF) ∧
  (∀ hs, getAttr coverTag (set_common s) = hs → hs ≠ "" →
     length (atob hs HANDLESIZE) < HANDLESIZE →
     Set_cover s = le_value (atob hs HANDLESIZE) ∧ Set_cover s ≠ UNDEF).
Proof.
  unfold Set_cover. split.
  - intros ->. by rewrite decide_False by (intros Hne; by apply Hne).
  - intros hs -> Hne Hlen. rewrite decide_True by done.
    rewrite handle_overwritten_short by done. split; [done|].
    pose proof (le_value_range (atob hs HANDLESIZE)) as Hr.
    assert (256 ^ Z.of_nat (length (atob hs HANDLESIZE)) ≤ 256 ^ 7)%Z.
    { apply Z.pow_le_mono_r; unfold HANDLESIZE in *; lia. }
    unfold UNDEF. lia.
Qed.

(** ** The attribute loop *)

(** Storing entries with distinct tags one after the other, as the reading
    loop does, builds the map of these entries. *)
Lemma foldl_insert_lookup (items : list (string * string))
    (acc : gmap string string) (tag : string) :
  NoDup items.*1 →
  foldl (λ m kv, <[kv.1 := kv.2]> m) acc items !! tag =
  match (list_to_map items : gmap string string) !! tag with
  | Some v => Some v
  | None => acc !! tag
  end.
Proof.
  revert acc. induction items as [|[k v] items IH]; intros acc Hnd.
  - simpl. by rewrite lookup_empty.
  - apply NoDup_cons in Hnd as [Hk Hnd]. simpl.
    rewrite IH by done.
    destruct (decide (k = tag)) as [->|Hne].
    + rewrite (not_elem_of_list_to_map_1 items tag) by done.
      by rewrite !lookup_insert_eq.
    + by rewrite !lookup_insert_ne by done.
Qed.

Lemma foldl_insert_items (m : gmap string string) :
  foldl (λ m kv, <[kv.1 := kv.2]> m) ∅ (string_map_items m) = m.
Proof.
  assert (string_map_items m ≡ₚ map_to_list m) as Hperm
    by apply merge_sort_Permutation.
  assert (NoDup (string_map_items m).*1) as Hnd.
  { rewrite Hperm. apply NoDup_fst_map_to_list. }
  apply map_eq. intros tag. rewrite foldl_insert_lookup by done.
  rewrite (list_to_map_proper _ (map_to_list m)) by done.
  rewrite list_to_map_to_list, lookup_empty. by destruct (m !! tag).
Qed.

Lemma length_string_map_items (m : gmap string string) :
  length (string_map_items m) = size m.
Proof.
  unfold string_map_items. rewrite merge_sort_Permutation.
  apply length_map_to_list.
Qed.

(** ** Decoding an encoding *)

Section FormatProperties.
Context {C : Cacheable} {nodehandle_ok : Z → Prop} {string_ok : string → Prop}.
Hypothesis laws : CacheableLaws C nodehandle_ok string_ok.

Lemma unserialize_attrs_serialize (items : list (string * string))
    (acc : gmap string string) (rest : list byte) :
  Forall (λ kv, string_ok kv.1 ∧ string_ok kv.2) items →
  unserialize_attrs (length items) acc (serialize_attrs items ++ rest)
  = Some (foldl (λ m kv, <[kv.1 := kv.2]> m) acc items, rest).
Proof.
  revert acc. induction items as [|[k v] items IH]; intros acc Hok.
  - done.
  - apply Forall_cons in Hok as [[Hk Hv] Hok]. simpl in Hk, Hv.
    cbn [serialize_attrs length unserialize_attrs].
    rewrite <- !app_assoc.
    rewrite (string_roundtrip _ _ _ laws) by done. cbn [mbind option_bind].
    rewrite (string_roundtrip _ _ _ laws) by done. cbn [mbind option_bind].
    by rewrite IH.
Qed.

(** The count and the attributes are read back as the entries of the
    map; an absent map is read back as an empty one. *)
Lemma unserialize_attr_block (attrs : option (gmap string string))
    (rest : list byte) :
  attrs_fit string_ok attrs →
  ∃ d,
    unserializeu32 (serialize_attr_block attrs ++ rest)
      = Some (Z.of_nat (size (default ∅ attrs)), d) ∧
    unserialize_attrs (size (default ∅ attrs)) ∅ d
      = Some (default ∅ attrs, rest).
Proof.
  intros [Hsize Hok]. unfold serialize_attr_block.
  assert (match attrs with Some a => size a | None => 0 end
          = size (default ∅ attrs)) as -> by by destruct attrs.
  set (m := default ∅ attrs) in *.
  rewrite Z.mod_small by lia. rewrite <- app_assoc.
  eexists. split; [apply (u32_roundtrip _ _ _ laws); lia|].
  destruct (decide (size m = 0)) as [Hz|Hnz].
  - rewrite Hz. apply map_size_empty_inv in Hz. by rewrite Hz.
  - rewrite <- length_string_map_items.
    rewrite unserialize_attrs_serialize; [by rewrite foldl_insert_items|].
    unfold string_map_items. rewrite merge_sort_Permutation.
    apply map_Forall_to_list in Hok.
    eapply Forall_impl; [exact Hok|]. by intros [k v].
Qed.

(** The Set that decoding an encoding yields. *)
Lemma Set_unserialize_serialize (s : Set_) :
  Set_fits string_ok s →
  Set_unserialize (Set_serialize s []).2 =
  Some {| set_common :=
            {| mId := mId (set_common s); mKey := mKey (set_common s);
               mAttrs := Some (default ∅ (mAttrs (set_common s)));
               mTs := mTs (set_common s); mEncryptedAttrs := None |};
          mUser := mUser s; set_mChanges := 0 |}.
Proof.
  intros [(Hid & Hts & Hkey & Hattrs) Huser].
  unfold Set_serialize, Set_unserialize. cbn [snd app].
  rewrite (handle_roundtrip _ _ _ laws) by done. cbn [mbind option_bind].
  rewrite (handle_roundtrip _ _ _ laws) by done. cbn [mbind option_bind].
  rewrite (compressed64_roundtrip _ _ _ laws) by done. cbn [mbind option_bind].
  rewrite (string_roundtrip _ _ _ laws) by done. cbn [mbind option_bind].
  destruct (unserialize_attr_block (mAttrs (set_common s))
              serializeexpansionflags Hattrs) as (d & -> & Hloop).
  cbn [mbind option_bind]. rewrite Nat2Z.id, Hloop. cbn [mbind option_bind].
  destruct (expansionflags_roundtrip _ _ _ laws []) as [flags Hflags].
  rewrite app_nil_r in Hflags. rewrite Hflags. done.
Qed.

(** The Element that decoding an encoding yields. *)
Lemma SetElement_unserialize_serialize (e : SetElement) :
  SetElement_fits nodehandle_ok string_ok e →
  SetElement_unserialize (SetElement_serialize e []).2 =
  Some {| el_common :=
            {| mId := mId (el_common e); mKey := mKey (el_common e);
               mAttrs := Some (default ∅ (mAttrs (el_common e)));
               mTs := mTs (el_common e); mEncryptedAttrs := None |};
          mSetId := mSetId e; mNodeHandle := mNodeHandle e;
          mOrder := Some (order e);
          mAttrsClearedByLastUpdate := false;
          el_mChanges := mask_set CH_EL_ORDER 0 |}.
Proof.
  intros ((Hid & Hts & Hkey & Hattrs) & Hsid & Hnode & Horder).
  unfold SetElement_serialize, SetElement_unserialize. cbn [snd app].
  rewrite (handle_roundtrip _ _ _ laws) by done. cbn [mbind option_bind].
  rewrite (handle_roundtrip _ _ _ laws) by done. cbn [mbind option_bind].
  rewrite (nodehandle_roundtrip _ _ _ laws) by done. cbn [mbind option_bind].
  unfold order in Horder.
  rewrite (i64_roundtrip _ _ _ laws) by (by destruct (mOrder e)).
  cbn [mbind option_bind].
  rewrite (compressed64_roundtrip _ _ _ laws) by done. cbn [mbind option_bind].
  rewrite (string_roundtrip _ _ _ laws) by done. cbn [mbind option_bind].
  destruct (unserialize_attr_block (mAttrs (el_common e))
              serializeexpansionflags Hattrs) as (d & -> & Hloop).
  cbn [mbind option_bind]. rewrite Nat2Z.id, Hloop. cbn [mbind option_bind].
  destruct (expansionflags_roundtrip _ _ _ laws []) as [flags Hflags].
  rewrite app_nil_r in Hflags. rewrite Hflags.
  unfold order. by destruct (mOrder e).
Qed.
End FormatProperties.

(** ** Failing reads *)

Section FailureProperties.
Context {C : Cacheable}.

Lemma attrs_read_fails_None (n : nat) (d : list byte) (acc : gmap string string) :
  attrs_read_fails n d → unserialize_attrs n acc d = None.
Proof.
  intros Hfail. revert acc.
  induction Hfail as [n d Htag|n d ak d1 Htag Hval|n d ak d1 av d2 Htag Hval _ IH];
    intros acc; cbn [unserialize_attrs].
  - by rewrite Htag.
  - rewrite Htag. cbn [mbind option_bind]. by rewrite Hval.
  - rewrite Htag. cbn [mbind option_bind]. rewrite Hval.
    cbn [mbind option_bind]. apply IH.
Qed.

Lemma unserialize_attrs_None (n : nat) (d : list byte) (acc : gmap string string) :
  unserialize_attrs n acc d = None → attrs_read_fails n d.
Proof.
  revert d acc. induction n as [|n IH]; intros d acc; cbn [unserialize_attrs].
  - done.
  - destruct (unserializestring d) as [[ak d1]|] eqn:Htag;
      [|intros _; by apply attrs_fails_tag].
    cbn [mbind option_bind].
    destruct (unserializestring d1) as [[av d2]|] eqn:Hval;
      [|intros _; by eapply attrs_fails_value].
    cbn [mbind option_bind]. intros Hrest.
    eapply attrs_fails_later; [done..|]. by eapply IH.
Qed.

(** Whether the loop fails does not depend on the map it fills. *)
Lemma unserialize_attrs_None_acc (n : nat) (d : list byte)
    (acc acc' : gmap string string) :
  unserialize_attrs n acc d = None → unserialize_attrs n acc' d = None.
Proof. intros H. eapply attrs_read_fails_None, unserialize_attrs_None, H. Qed.

Lemma attr_block_read_fails_None (d : list byte) :
  attr_block_read_fails d ↔ unserialize_attr_tail d = None.
Proof.
  unfold unserialize_attr_tail. split.
  - intros [Hc|n d1 Hc Hloop|n d1 attrs d2 Hc Hloop Hflags]; rewrite Hc;
      cbn [mbind option_bind]; [done|..].
    + by rewrite (attrs_read_fails_None _ _ ∅ Hloop).
    + rewrite Hloop. cbn [mbind option_bind]. by rewrite Hflags.
  - destruct (unserializeu32 d) as [[n d1]|] eqn:Hc;
      [|intros _; by apply block_fails_count].
    cbn [mbind option_bind].
    destruct (unserialize_attrs (Z.to_nat n) ∅ d1) as [[attrs d2]|] eqn:Hloop.
    + cbn [mbind option_bind].
      destruct (unserializeexpansionflags 0 d2) as [[flags d3]|] eqn:Hflags;
        [done|]. intros _. by eapply block_fails_flags.
    + intros _. eapply block_fails_attrs; [done|].
      by eapply unserialize_attrs_None.
Qed.

Lemma Set_unserialize_tail (d : list byte) :
  Set_unserialize d =
  '(id, d1) ← unserializehandle d;
  '(u, d2) ← unserializehandle d1;
  '(ts, d3) ← unserializecompressed64 d2;
  '(k, d4) ← unserializestring d3;
  attrs ← unserialize_attr_tail d4;
  let s := Set_new id k u attrs in
  Some (Set_with_common (setTs ts (set_common s)) s).
Proof.
  unfold Set_unserialize, unserialize_attr_tail.
  repeat (apply option_bind_ext_fun; intros [??]); simpl.
  destruct (unserializeu32 _) as [[attrCount d']|]; simpl; [|done].
  destruct (unserialize_attrs _ _ _) as [[attrs d'']|]; simpl; [|done].
  by destruct (unserializeexpansionflags _ _) as [[??]|].
Qed.

Lemma SetElement_unserialize_tail (d : list byte) :
  SetElement_unserialize d =
  '(sid, d1) ← unserializehandle d;
  '(eid, d2) ← unserializehandle d1;
  '(h, d3) ← unserializenodehandle d2;
  '(o, d4) ← unserializei64 d3;
  '(ts, d5) ← unserializecompressed64 d4;
  '(k, d6) ← unserializestring d5;
  attrs ← unserialize_attr_tail d6;
  let el := setOrder o (SetElement_new sid h eid k attrs) in
  Some (SetElement_with_common (setTs ts (el_common el)) el).
Proof.
  unfold SetElement_unserialize, unserialize_attr_tail.
  repeat (apply option_bind_ext_fun; intros [??]); simpl.
  destruct (unserializeu32 _) as [[attrCount d']|]; simpl; [|done].
  destruct (unserialize_attrs _ _ _) as [[attrs d'']|]; simpl; [|done].
  by destruct (unserializeexpansionflags _ _) as [[??]|].
Qed.
End FailureProperties.

Section DecodeProperties.
Context {C : Cacheable}.

Ltac read_ok H := rewrite H; cbn [mbind option_bind].

(** When a read fails at any field of the record (a handle, the
    order, the timestamp, the key, the attribute count, the tag or the
    value of any attribute, the expansion flags), [Set::unserialize] and
    [SetElement::unserialize] return no object. *)
Theorem unserialize_failed_read_no_value (d : list byte) :
  (Set_read_fails d → Set_unserialize d = None) ∧
  (SetElement_read_fails d → SetElement_unserialize d = None).
Proof.
  split.
  - rewrite Set_unserialize_tail.
    intros [H1|id d1 H1 H2|id d1 u d2 H1 H2 H3|id d1 u d2 ts d3 H1 H2 H3 H4
           |id d1 u d2 ts d3 k d4 H1 H2 H3 H4 Hblock].
    + by rewrite H1.
    + read_ok H1. by rewrite H2.
    + read_ok H1. read_ok H2. by rewrite H3.
    + read_ok H1. read_ok H2. read_ok H3. by rewrite H4.
    + read_ok H1. read_ok H2. read_ok H3. read_ok H4.
      apply attr_block_read_fails_None in Hblock. by rewrite Hblock.
  - rewrite SetElement_unserialize_tail.
    intros [H1|sid d1 H1 H2|sid d1 eid d2 H1 H2 H3
           |sid d1 eid d2 h d3 H1 H2 H3 H4
           |sid d1 eid d2 h d3 o d4 H1 H2 H3 H4 H5
           |sid d1 eid d2 h d3 o d4 ts d5 H1 H2 H3 H4 H5 H6
           |sid d1 eid d2 h d3 o d4 ts d5 k d6 H1 H2 H3 H4 H5 H6 Hblock].
    + by rewrite H1.
    + read_ok H1. by rewrite H2.
    + read_ok H1. read_ok H2. by rewrite H3.
    + read_ok H1. read_ok H2. read_ok H3. by rewrite H4.
    + read_ok H1. read_ok H2. read_ok H3. read_ok H4. by rewrite H5.
    + read_ok H1. read_ok H2. read_ok H3. read_ok H4. read_ok H5.
      by rewrite H6.
    + read_ok H1. read_ok H2. read_ok H3. read_ok H4. read_ok H5.
      read_ok H6.
      apply attr_block_read_fails_None in Hblock. by rewrite Hblock.
Qed.

(** The failing reads are the only way to no object. *)
Lemma Set_unserialize_None (d : list byte) :
  Set_unserialize d = None → Set_read_fails d.
Proof.
  rewrite Set_unserialize_tail.
  destruct (unserializehandle d) as [[id d1]|] eqn:H1;
    [|intros _; by apply Set_fails_id].
  cbn [mbind option_bind].
  destruct (unserializehandle d1) as [[u d2]|] eqn:H2;
    [|intros _; by eapply Set_fails_user].
  cbn [mbind option_bind].
  destruct (unserializecompressed64 d2) as [[ts d3]|] eqn:H3;
    [|intros _; by eapply Set_fails_ts].
  cbn [mbind option_bind].
  destruct (unserializestring d3) as [[k d4]|] eqn:H4;
    [|intros _; by eapply Set_fails_key].
  cbn [mbind option_bind].
  destruct (unserialize_attr_tail d4) as [attrs|] eqn:Htail; [done|].
  intros _. eapply Set_fails_block; [done..|].
  by apply attr_block_read_fails_None.
Qed.

Lemma SetElement_unserialize_None (d : list byte) :
  SetElement_unserialize d = None → SetElement_read_fails d.
Proof.
  rewrite SetElement_unserialize_tail.
  destruct (unserializehandle d) as [[sid d1]|] eqn:H1;
    [|intros _; by apply El_fails_set].
  cbn [mbind option_bind].
  destruct (unserializehandle d1) as [[eid d2]|] eqn:H2;
    [|intros _; by eapply El_fails_id].
  cbn [mbind option_bind].
  destruct (unserializenodehandle d2) as [[h d3]|] eqn:H3;
    [|intros _; by eapply El_fails_node].
  cbn [mbind option_bind].
  destruct (unserializei64 d3) as [[o d4]|] eqn:H4;
    [|intros _; by eapply El_fails_order].
  cbn [mbind option_bind].
  destruct (unserializecompressed64 d4) as [[ts d5]|] eqn:H5;
    [|intros _; by eapply El_fails_ts].
  cbn [mbind option_bind].
  destruct (unserializestring d5) as [[k d6]|] eqn:H6;
    [|intros _; by eapply El_fails_key].
  cbn [mbind option_bind].
  destruct (unserialize_attr_tail d6) as [attrs|] eqn:Htail; [done|].
  intros _. eapply El_fails_block; [done..|].
  by apply attr_block_read_fails_None.
Qed.

(** An Element is produced from the fields read, the order among them. *)
Lemma SetElement_unserialize_Some (d : list byte) (el : SetElement) :
  SetElement_unserialize d = Some el →
  ∃ sid d1 eid d2 h d3 o d4 ts d5 k d6 attrs,
    unserializehandle d = Some (sid, d1) ∧
    unserializehandle d1 = Some (eid, d2) ∧
    unserializenodehandle d2 = Some (h, d3) ∧
    unserializei64 d3 = Some (o, d4) ∧
    unserializecompressed64 d4 = Some (ts, d5) ∧
    unserializestring d5 = Some (k, d6) ∧
    unserialize_attr_tail d6 = Some attrs ∧
    el = SetElement_with_common
           (setTs ts (CommonSE_new eid k attrs))
           (setOrder o (SetElement_new sid h eid k attrs)).
Proof.
  rewrite SetElement_unserialize_tail.
  destruct (unserializehandle d) as [[sid d1]|] eqn:H1; [|done].
  cbn [mbind option_bind].
  destruct (unserializehandle d1) as [[eid d2]|] eqn:H2; [|done].
  cbn [mbind option_bind].
  destruct (unserializenodehandle d2) as [[h d3]|] eqn:H3; [|done].
  cbn [mbind option_bind].
  destruct (unserializei64 d3) as [[o d4]|] eqn:H4; [|done].
  cbn [mbind option_bind].
  destruct (unserializecompressed64 d4) as [[ts d5]|] eqn:H5; [|done].
  cbn [mbind option_bind].
  destruct (unserializestring d5) as [[k d6]|] eqn:H6; [|done].
  cbn [mbind option_bind].
  destruct (unserialize_attr_tail d6) as [attrs|] eqn:Htail; [|done].
  cbn [mbind option_bind]. intros [= <-].
  by exists sid, d1, eid, d2, h, d3, o, d4, ts, d5, k, d6, attrs.
Qed.
End DecodeProperties.

Section RoundTrip.
Context {C : Cacheable} {nodehandle_ok : Z → Prop} {string_ok : string → Prop}.
Hypothesis laws : CacheableLaws C nodehandle_ok string_ok.

(** C10. An Element that [SetElement::unserialize] produces has an order,
    the [int64_t] read as fourth field, and its [CH_EL_ORDER] bit is
    marked. So an Element without order, once encoded and decoded, has
    order 0 and the bit marked. *)
Theorem SetElement_unserialize_order_set :
  (∀ d el, SetElement_unserialize d = Some el →
     ∃ sid d1 eid d2 h d3 o d4,
       unserializehandle d = Some (sid, d1) ∧
       unserializehandle d1 = Some (eid, d2) ∧
       unserializenodehandle d2 = Some (h, d3) ∧
       unserializei64 d3 = Some (o, d4) ∧
       mOrder el = Some o ∧
       SetElement_hasChanged CH_EL_ORDER el = true) ∧
  (∀ e, SetElement_fits nodehandle_ok string_ok e → mOrder e = None →
     ∃ el, SetElement_unserialize (SetElement_serialize e []).2 = Some el ∧
       mOrder el = Some 0%Z ∧
       SetElement_hasChanged CH_EL_ORDER el = true).
Proof.
  split.
  - intros d el Hel.
    apply SetElement_unserialize_Some in Hel
      as (sid & d1 & eid & d2 & h & d3 & o & d4 & ts & d5 & k & d6 & attrs
          & H1 & H2 & H3 & H4 & _ & _ & _ & ->).
    exists sid, d1, eid, d2, h, d3, o, d4. repeat split; done.
  - intros e Hfits Hnone.
    rewrite (SetElement_unserialize_serialize laws) by done.
    eexists. split; [done|]. unfold order. rewrite Hnone. done.
Qed.

(** C1, as the code has it. Decoding the encoding of a Set or of an
    Element whose fields fit the format gives an object with the same
    ids, node handle, timestamp and key, and with the same attributes, an
    absent map coming back as an empty one. The order of an Element comes
    back assigned, 0 when it was not, with [CH_EL_ORDER] marked. What the
    format does not carry comes back as constructed: no encrypted blob,
    the cleared flag off, no other change. So the decoded object equals
    the encoded one field for field, up to [same_attrs], when that one
    holds no encrypted blob and is as its constructor left it, the order
    of an Element having been assigned since. *)
Theorem unserialize_serialize_fields :
  (∀ s, Set_fits string_ok s →
     ∃ s', Set_unserialize (Set_serialize s []).2 = Some s' ∧
       mId (set_common s') = mId (set_common s) ∧
       mUser s' = mUser s ∧
       mTs (set_common s') = mTs (set_common s) ∧
       mKey (set_common s') = mKey (set_common s) ∧
       same_attrs (mAttrs (set_common s')) (mAttrs (set_common s)) ∧
       hasAttrs (set_common s') = true ∧
       mEncryptedAttrs (set_common s') = None ∧
       set_mChanges s' = 0%Z ∧
       (mEncryptedAttrs (set_common s) = None → set_mChanges s = 0%Z →
          Set_same s' s)) ∧
  (∀ e, SetElement_fits nodehandle_ok string_ok e →
     ∃ e', SetElement_unserialize (SetElement_serialize e []).2 = Some e' ∧
       mSetId e' = mSetId e ∧
       mId (el_common e') = mId (el_common e) ∧
       mNodeHandle e' = mNodeHandle e ∧
       mTs (el_common e') = mTs (el_common e) ∧
       mKey (el_common e') = mKey (el_common e) ∧
       same_attrs (mAttrs (el_common e')) (mAttrs (el_common e)) ∧
       hasAttrs (el_common e') = true ∧
       mOrder e' = Some (order e) ∧
       el_mChanges e' = mask_set CH_EL_ORDER 0 ∧
       mEncryptedAttrs (el_common e') = None ∧
       mAttrsClearedByLastUpdate e' = false ∧
       (mEncryptedAttrs (el_common e) = None →
        mAttrsClearedByLastUpdate e = false →
        is_Some (mOrder e) →
        el_mChanges e = mask_set CH_EL_ORDER 0 →
          SetElement_same e' e)).
Proof.
  split.
  - intros s Hfits. rewrite (Set_unserialize_serialize laws) by done.
    eexists. split; [done|]. do 8 (split; [done|]).
    intros Henc Hch. unfold Set_same; simpl. by rewrite Henc, Hch.
  - intros e Hfits. rewrite (SetElement_unserialize_serialize laws) by done.
    eexists. split; [done|]. do 11 (split; [done|]).
    intros Henc Hcl [o Ho] Hch. unfold SetElement_same, order; simpl.
    by rewrite Henc, Hcl, Ho, Hch.
Qed.
End RoundTrip.

(** ** The field primitives *)

Lemma length_list_byte_of_string (s : string) :
  length (String.list_byte_of_string s) = String.length s.
Proof.
  unfold String.list_byte_of_string. rewrite length_map.
  induction s as [|c s IH]; simpl; [done|]. by rewrite IH.
Qed.

Lemma read_le_bytes (n : nat) (z : Z) (rest : list byte) :
  (0 ≤ z < 256 ^ Z.of_nat n)%Z →
  (read_bytes n (le_bytes n z ++ rest) ≫= λ '(bs, d'), Some (le_value bs, d'))
  = Some (z, rest).
Proof.
  intros Hz.
  rewrite <- (length_le_bytes n z) at 1. rewrite read_bytes_app.
  cbn [mbind option_bind]. by rewrite le_value_le_bytes.
Qed.

Lemma significant_bytes_length (fuel : nat) (v : Z) :
  length (significant_bytes fuel v) ≤ fuel.
Proof.
  revert v. induction fuel as [|fuel IH]; intros v; simpl; [done|].
  case_decide; simpl; [lia|]. specialize (IH (v / 256)%Z). lia.
Qed.

Lemma le_value_significant_bytes (fuel : nat) (v : Z) :
  (0 ≤ v < 256 ^ Z.of_nat fuel)%Z → le_value (significant_bytes fuel v) = v.
Proof.
  revert v. induction fuel as [|fuel IH]; intros v Hv.
  - simpl in *. lia.
  - rewrite Nat2Z.inj_succ, Z.pow_succ_r in Hv by lia.
    simpl. case_decide; [done|]. simpl.
    rewrite Z_of_byte_of_Z, IH.
    + pose proof (Z.div_mod v 256). lia.
    + split; [apply Z.div_pos; lia|]. apply Z.div_lt_upper_bound; lia.
Qed.

(** A bounds-checked read fails exactly on a buffer that is too short. *)
Lemma read_bytes_None (n : nat) (d : list byte) :
  read_bytes n d = None ↔ length d < n.
Proof.
  unfold read_bytes. case_decide; split; intros H'; try done; lia.
Qed.

(** The modelled handle reader fails exactly on fewer than eight bytes. *)
Lemma mega_unserializehandle_None (d : list byte) :
  mega_unserializehandle d = None ↔ length d < 8.
Proof.
  unfold mega_unserializehandle. rewrite <- read_bytes_None.
  by destruct (read_bytes 8 d) as [[bs d']|].
Qed.

(** The modelled string reader fails exactly on a prefix cut short or on a
    string cut short of the length that its prefix announces. *)
Lemma mega_unserializestring_None (d : list byte) :
  mega_unserializestring d = None ↔
  length d < 2 ∨ length (drop 2 d) < Z.to_nat (le_value (take 2 d)).
Proof.
  unfold mega_unserializestring.
  destruct (read_bytes 2 d) as [[lb d1]|] eqn:Hprefix; cbn [mbind option_bind].
  - assert (¬ length d < 2) as Hlong
      by (intros Hshort%read_bytes_None; congruence).
    unfold read_bytes in Hprefix. case_decide; [|done].
    injection Hprefix as <- <-.
    destruct (read_bytes (Z.to_nat (le_value (take 2 d))) (drop 2 d))
      as [[bs d2]|] eqn:Hbody; cbn [mbind option_bind].
    + split; [done|]. intros [Hshort|Hcut%read_bytes_None]; [done|congruence].
    + apply read_bytes_None in Hbody. split; [by right|done].
  - apply read_bytes_None in Hprefix. split; [by left|done].
Qed.

(** The primitives modelled above read back what they write, node handles
    below [2 ^ 48] and strings shorter than [2 ^ 16]. *)
Lemma mega_cacheable_laws :
  CacheableLaws mega_cacheable mega_nodehandle_ok mega_string_ok.
Proof.
  split; cbn [serializehandle unserializehandle serializenodehandle
              unserializenodehandle serializei64 unserializei64
              serializecompressed64 unserializecompressed64 serializestring
              unserializestring serializeu32 unserializeu32
              serializeexpansionflags unserializeexpansionflags mega_cacheable].
  - intros h rest Hh. apply (read_le_bytes 8). by change (256 ^ Z.of_nat 8)%Z with (2 ^ 64)%Z.
  - intros h rest Hh. apply (read_le_bytes 6). by change (256 ^ Z.of_nat 6)%Z with (2 ^ 48)%Z.
  - intros o rest Ho. unfold mega_serializei64, mega_unserializei64.
    pose proof (Z.mod_pos_bound o (2 ^ 64) eq_refl) as Hm.
    rewrite <- (length_le_bytes 8 (o mod 2 ^ 64)) at 1. rewrite read_bytes_app.
    cbn [mbind option_bind].
    rewrite le_value_le_bytes by (by change (256 ^ Z.of_nat 8)%Z with (2 ^ 64)%Z).
    do 2 f_equal. destruct (decide (0 ≤ o)%Z).
    + rewrite Z.mod_small by lia. rewrite decide_True by lia. done.
    + assert (o mod 2 ^ 64 = o + 2 ^ 64)%Z as ->.
      { symmetry. apply (Z.mod_unique_pos _ _ (-1)); lia. }
      rewrite decide_False by lia. lia.
  - intros ts rest Hts. unfold mega_serializecompressed64, mega_unserializecompressed64.
    cbn [app]. pose proof (significant_bytes_length 8 ts) as Hlen.
    rewrite Z_of_byte_of_Z, Z.mod_small, Nat2Z.id by lia.
    rewrite decide_True by (rewrite length_app; lia).
    rewrite take_app_length, drop_app_length.
    rewrite le_value_significant_bytes; [done|].
    by change (256 ^ Z.of_nat 8)%Z with (2 ^ 64)%Z.
  - intros s rest Hs. unfold mega_string_ok in Hs.
    unfold mega_serializestring, mega_unserializestring.
    rewrite Z.mod_small, Nat2Z.id by lia.
    rewrite <- length_list_byte_of_string in *.
    set (bs := String.list_byte_of_string s) in *.
    rewrite firstn_all, <- app_assoc.
    rewrite <- (length_le_bytes 2 (Z.of_nat (length bs))) at 1.
    rewrite read_bytes_app. cbn [mbind option_bind].
    rewrite le_value_le_bytes, Nat2Z.id
      by (change (256 ^ Z.of_nat 2)%Z with (2 ^ 16)%Z; lia).
    rewrite read_bytes_app. cbn [mbind option_bind].
    unfold bs. by rewrite String.string_of_list_byte_of_string.
  - intros n rest Hn. apply (read_le_bytes 4). by change (256 ^ Z.of_nat 4)%Z with (2 ^ 32)%Z.
  - intros rest. by eexists.
Qed.

(** * The properties on the sample objects *)

(** Closes a goal that a sample object fits the format. *)
Ltac fits_by_computation :=
  repeat apply conj;
  first [ apply map_Forall_to_list; vm_compute; repeat constructor
        | vm_compute; congruence ].

Lemma setOrder_first_differs_same_witness :
  (mOrder (setOrder 0 sample_element) = Some 0%Z ∧
   SetElement_hasChanged CH_EL_ORDER (setOrder 0 sample_element) = true) ∧
  (mOrder (setOrder 6 sample_ordered) = Some 6%Z ∧
   SetElement_hasChanged CH_EL_ORDER (setOrder 6 sample_ordered) = true) ∧
  setOrder 5 sample_ordered = sample_ordered.
Proof.
  split; [|split].
  - apply (proj1 (setOrder_first_differs_same 0 sample_element)). reflexivity.
  - apply (proj1 (proj2 (setOrder_first_differs_same 6 sample_ordered)) 5%Z).
    + reflexivity.
    + lia.
  - apply (proj2 (proj2 (setOrder_first_differs_same 5 sample_ordered))).
    reflexivity.
Defined.

Lemma SetElement_updateWith_attrs_retained_witness :
  mAttrs (el_common (SetElement_updateWith (sample_update false) sample_element).1.2)
    = mAttrs (el_common sample_element) ∧
  mAttrs (el_common (SetElement_updateWith (sample_update true) sample_element).1.2)
    = None.
Proof.
  split.
  - apply (SetElement_updateWith_attrs_retained (sample_update false) sample_element);
      reflexivity.
  - apply (SetElement_updateWith_attrs_retained (sample_update true) sample_element);
      reflexivity.
Defined.

Lemma decryptAttributes_failure_inert_witness :
  (decryptAttributes failing_decrypt (sample_encrypted "blob") 0).1
    = (false, sample_encrypted "blob").
Proof.
  apply (decryptAttributes_failure_inert failing_decrypt
           (sample_encrypted "blob") 0 "blob").
  - reflexivity.
  - discriminate.
  - reflexivity.
Defined.

Lemma decryptAttributes_empty_blob_witness :
  let '(ok, c', calls) := decryptAttributes failing_decrypt (sample_encrypted "") 0 in
  ok = true ∧ calls = 0 ∧ mAttrs c' = Some ∅ ∧ mEncryptedAttrs c' = None.
Proof.
  pose proof (decryptAttributes_empty_blob failing_decrypt (sample_encrypted "") 0
                eq_refl) as H.
  destruct (decryptAttributes failing_decrypt (sample_encrypted "") 0)
    as [[ok c'] calls].
  destruct H as (Hok & Hcalls & Hattrs & Hblob & _). by repeat split.
Defined.

Lemma rebase_twice_iff_witness :
  rebaseCommonAttrsOn (Some sample_cover_base)
    (rebaseCommonAttrsOn (Some sample_cover_base) sample_named)
  = rebaseCommonAttrsOn (Some sample_cover_base) sample_named.
Proof.
  apply (rebase_twice_iff (Some sample_cover_base) sample_named).
  intros tag. simpl. unfold sample_cover_base.
  destruct (decide (tag = "n")) as [->|Hn].
  - rewrite lookup_insert_eq. discriminate.
  - rewrite lookup_insert_ne, lookup_empty by done.
    destruct (decide (tag = "c")) as [->|Hc].
    + rewrite lookup_insert_eq. discriminate.
    + rewrite lookup_insert_ne, lookup_empty by done. discriminate.
Defined.

(** The delete marker is spent by the first rebase: the second one brings
    the base value of "n" back. *)
Lemma rebase_twice_counterexample :
  rebaseCommonAttrsOn (Some sample_base)
    (rebaseCommonAttrsOn (Some sample_base) sample_deleting)
  ≠ rebaseCommonAttrsOn (Some sample_base) sample_deleting.
Proof. vm_compute. congruence. Qed.

Lemma Set_cover_absent_or_short_witness :
  Set_cover (H := mega_atob) (Set_new 1 "key" 7 ∅) = UNDEF ∧
  Set_cover (H := mega_atob) sample_set = le_value (mega_atob "AA" HANDLESIZE) ∧
  Set_cover (H := mega_atob) sample_set ≠ UNDEF.
Proof.
  split.
  - apply (proj1 (Set_cover_absent_or_short (H := mega_atob) (Set_new 1 "key" 7 ∅))).
    reflexivity.
  - apply (proj2 (Set_cover_absent_or_short (H := mega_atob) sample_set) "AA").
    + reflexivity.
    + discriminate.
    + vm_compute. lia.
Defined.

(** The two characters "AA" decode to one byte, 0: the cover read is the
    handle 0. *)
Lemma Set_cover_short_payload_counterexample :
  getAttr coverTag (set_common sample_set) = "AA" ∧
  Set_cover (H := mega_atob) sample_set = 0%Z ∧
  Set_cover (H := mega_atob) sample_set ≠ UNDEF.
Proof. repeat split. vm_compute. congruence. Qed.

Lemma unserialize_failed_read_no_value_witness :
  Set_unserialize (C := mega_cacheable) truncated_set_record = None ∧
  SetElement_unserialize (C := mega_cacheable) miscounted_element_record = None.
Proof.
  split.
  - apply (proj1 (unserialize_failed_read_no_value (C := mega_cacheable)
                    truncated_set_record)).
    eapply Set_fails_key; reflexivity.
  - apply (proj2 (unserialize_failed_read_no_value (C := mega_cacheable)
                    miscounted_element_record)).
    eapply El_fails_block; [reflexivity..|].
    eapply block_fails_attrs; [reflexivity|].
    eapply attrs_fails_later; [reflexivity..|].
    eapply attrs_fails_later; [reflexivity..|].
    eapply attrs_fails_later; [reflexivity..|].
    apply attrs_fails_tag. reflexivity.
Defined.

Lemma SetElement_unserialize_order_set_witness :
  ∃ el o,
    SetElement_unserialize (C := mega_cacheable)
      (SetElement_serialize (C := mega_cacheable) sample_element []).2 = Some el ∧
    mOrder el = Some o ∧ o = 0%Z ∧
    SetElement_hasChanged CH_EL_ORDER el = true.
Proof.
  destruct (SetElement_unserialize_order_set mega_cacheable_laws) as [Hany Hunset].
  destruct (Hunset sample_element) as (el & Hel & Horder & Hbit).
  - fits_by_computation.
  - reflexivity.
  - destruct (Hany _ el Hel) as (_ & _ & _ & _ & _ & _ & o & _ & _ & _ & _ & _ & Ho & _).
    exists el, o. repeat split; [done..| |done]. congruence.
Defined.

Lemma unserialize_serialize_fields_witness :
  (∃ s', Set_unserialize (C := mega_cacheable)
           (Set_serialize (C := mega_cacheable) sample_set []).2 = Some s' ∧
         Set_same s' sample_set) ∧
  (∃ e', SetElement_unserialize (C := mega_cacheable)
           (SetElement_serialize (C := mega_cacheable) sample_element []).2 = Some e' ∧
         mOrder e' = Some 0%Z) ∧
  (∃ e', SetElement_unserialize (C := mega_cacheable)
           (SetElement_serialize (C := mega_cacheable)
              (setOrder 5 sample_element) []).2 = Some e' ∧
         SetElement_same e' (setOrder 5 sample_element)).
Proof.
  destruct (unserialize_serialize_fields mega_cacheable_laws) as [HS HE].
  split; [|split].
  - destruct (HS sample_set) as (s' & Hs' & Hfields).
    + fits_by_computation.
    + exists s'. split; [done|]. apply Hfields; reflexivity.
  - destruct (HE sample_element) as (e' & He' & Hfields).
    + fits_by_computation.
    + exists e'. split; [done|]. apply Hfields.
  - destruct (HE (setOrder 5 sample_element)) as (e' & He' & Hfields).
    + fits_by_computation.
    + exists e'. split; [done|]. apply Hfields; try reflexivity.
      by exists 5%Z.
Defined.

(** An Element as constructed has no order; decoded from its encoding it
    has the order 0, so the two differ in a field. *)
Lemma roundtrip_unset_order_counterexample :
  ¬ ∃ e', SetElement_unserialize (C := mega_cacheable)
            (SetElement_serialize (C := mega_cacheable) sample_element []).2 = Some e' ∧
          SetElement_same e' sample_element.
Proof.
  intros (e' & He & Hsame).
  destruct Hsame as (_ & _ & _ & _ & _ & _ & _ & Hord & _).
  assert (mOrder <$> SetElement_unserialize (C := mega_cacheable)
            (SetElement_serialize (C := mega_cacheable) sample_element []).2
          = Some (Some 0%Z)) as Hdecoded by (vm_compute; reflexivity).
  rewrite He in Hdecoded. simpl in Hdecoded, Hord. congruence.
Qed.

(** * Further properties *)

(** ** Reading and writing attributes *)

Lemma getAttr_lookup (tag : string) (c : CommonSE) :
  getAttr tag c = default "" (default ∅ (mAttrs c) !! tag).
Proof. unfold getAttr. destruct (mAttrs c); simpl; [done|]. by rewrite lookup_empty. Qed.

(** X1. An attribute that was set is read back, the other attributes read
    as before, the map is allocated from then on and the other members are
    untouched. *)
Theorem getAttr_setAttr (tag tag' value : string) (c : CommonSE) :
  getAttr tag' (setAttr tag value c)
    = (if decide (tag' = tag) then value else getAttr tag' c) ∧
  hasAttrs (setAttr tag value c) = true ∧
  mId (setAttr tag value c) = mId c ∧
  mKey (setAttr tag value c) = mKey c ∧
  mTs (setAttr tag value c) = mTs c ∧
  mEncryptedAttrs (setAttr tag value c) = mEncryptedAttrs c.
Proof.
  split; [|done]. rewrite !getAttr_lookup. unfold setAttr; simpl.
  destruct (decide (tag' = tag)) as [->|Hne].
  - by rewrite lookup_insert_eq.
  - by rewrite lookup_insert_ne.
Qed.

(** X2. [hasAttrChanged] compares what [getAttr] reads on both sides: it is
    false exactly when the two objects read the same value under the tag,
    so a missing tag, a missing map and an empty value do not differ; it is
    symmetric, and false of an object against its own attributes. *)
Theorem hasAttrChanged_getAttr (tag : string) (other c : CommonSE) :
  (hasAttrChanged tag (mAttrs other) c = false
     ↔ getAttr tag c = getAttr tag other) ∧
  hasAttrChanged tag (mAttrs other) c = hasAttrChanged tag (mAttrs c) other ∧
  hasAttrChanged tag (mAttrs c) c = false ∧
  hasAttrChanged tag None c = hasAttrChanged tag (Some ∅) c.
Proof.
  assert (∀ a b : CommonSE, hasAttrChanged tag (mAttrs a) b
            = bool_decide (getAttr tag b ≠ getAttr tag a)) as Heq.
  { intros a b. unfold hasAttrChanged. rewrite (getAttr_lookup tag a).
    destruct (mAttrs a); simpl; [done|]. by rewrite lookup_empty. }
  split; [|split; [|split]].
  - rewrite Heq. split.
    + intros Hf%bool_decide_eq_false. by apply dec_stable.
    + intros ->. apply bool_decide_eq_false. by intros Hne.
  - rewrite !Heq. apply bool_decide_ext. split; intros Hne Heq'; by apply Hne.
  - rewrite Heq. apply bool_decide_eq_false. by intros Hne.
  - unfold hasAttrChanged. by rewrite lookup_empty.
Qed.

(** ** More on rebasing *)

(** X3. The entries after a rebase on an allocated base: a tag that the
    local map holds with an empty value is gone, also when the base
    defines it; a tag with another local value keeps that value; a tag
    that the local map lacks has what the base has. *)
Theorem rebase_delete_override_inherit (base : gmap string string)
    (c : CommonSE) (tag : string) :
  let local := default ∅ (mAttrs c) in
  let rebased := default ∅ (mAttrs (rebaseCommonAttrsOn (Some base) c)) in
  (local !! tag = Some "" → rebased !! tag = None) ∧
  (∀ v, local !! tag = Some v → v ≠ "" → rebased !! tag = Some v) ∧
  (local !! tag = None → rebased !! tag = base !! tag).
Proof.
  cbv zeta. rewrite rebase_lookup. repeat split.
  - by intros ->.
  - intros v -> Hv. by rewrite decide_False.
  - by intros ->.
Qed.

(** X4. What [getAttr] reads after a rebase on an allocated base: the local
    value when the local map has the tag, be it empty, and else the value
    of the base, empty when the base lacks the tag. *)
Theorem getAttr_rebase (base : gmap string string) (c : CommonSE) (tag : string) :
  getAttr tag (rebaseCommonAttrsOn (Some base) c) =
  match default ∅ (mAttrs c) !! tag with
  | Some v => v
  | None => default "" (base !! tag)
  end.
Proof.
  rewrite getAttr_lookup, rebase_lookup.
  destruct (default ∅ (mAttrs c) !! tag) as [v|]; [|done].
  by destruct (decide (v = "")) as [->|].
Qed.

(** X5. With no local attribute, map absent or empty, a rebase copies the
    base; the map is released when the base is empty. Whatever the local
    map, a rebase on an allocated base leaves no allocated empty map, and
    it touches no other member. *)
Theorem rebase_empty_local (base : gmap string string) (c : CommonSE) :
  (default ∅ (mAttrs c) = ∅ →
     mAttrs (rebaseCommonAttrsOn (Some base) c)
       = if decide (base = ∅) then None else Some base) ∧
  mAttrs (rebaseCommonAttrsOn (Some base) c) ≠ Some ∅ ∧
  mId (rebaseCommonAttrsOn (Some base) c) = mId c ∧
  mKey (rebaseCommonAttrsOn (Some base) c) = mKey c ∧
  mTs (rebaseCommonAttrsOn (Some base) c) = mTs c ∧
  mEncryptedAttrs (rebaseCommonAttrsOn (Some base) c) = mEncryptedAttrs c.
Proof.
  split; [|split; [|done]].
  - intros Hempty. unfold rebaseCommonAttrsOn; simpl.
    by destruct (decide (default ∅ (mAttrs c) = ∅)).
  - unfold rebaseCommonAttrsOn; simpl. case_decide; congruence.
Qed.

(** ** More on decrypting and encrypting *)

Section CallbackProperties.
Context {W : Type}.
Implicit Types (c : CommonSE) (w : W).

(** X6. With a non-empty encrypted blob and a callback that succeeds,
    [decryptAttributes] returns true, installs the map that the callback
    filled, drops the blob and keeps id, key and timestamp. *)
Theorem decryptAttributes_success (f : @decryptFn W) c w (blob : string)
    (newAttrs : gmap string string) (w' : W) :
  mEncryptedAttrs c = Some blob →
  blob ≠ "" →
  f blob (mKey c) ∅ w = (true, newAttrs, w') →
  ∃ c', decryptAttributes f c w = (true, c', w') ∧
    mAttrs c' = Some newAttrs ∧ mEncryptedAttrs c' = None ∧
    mId c' = mId c ∧ mKey c' = mKey c ∧ mTs c' = mTs c.
Proof.
  intros Henc Hne Hf. unfold decryptAttributes.
  rewrite Henc, decide_False, Hf by done. eexists. by repeat split.
Qed.

(** X7. Once [decryptAttributes] has returned true, no blob is left, and
    any further call returns true without running its callback and without
    changing the object. *)
Theorem decryptAttributes_settled (f g : @decryptFn W) c c' w w' w2 :
  decryptAttributes f c w = (true, c', w') →
  mEncryptedAttrs c' = None ∧
  decryptAttributes g c' w2 = (true, c', w2).
Proof.
  unfold decryptAttributes at 1. intros Hfirst.
  assert (mEncryptedAttrs c' = None) as Hnone.
  { destruct (mEncryptedAttrs c) as [enc|] eqn:Henc.
    - destruct (decide (enc = "")); [by injection Hfirst as <- _|].
      destruct (f enc (mKey c) ∅ w) as [[[] newAttrs] w1];
        [by injection Hfirst as <- _|done].
    - injection Hfirst as <- _. done. }
  split; [done|]. unfold decryptAttributes. by rewrite Hnone.
Qed.

(** X8. Without attributes, map absent or empty, [encryptAttributes]
    returns the empty string and does not run the callback; with
    attributes it returns what the callback makes of the map and the key. *)
Theorem encryptAttributes_empty_or_callback (f : @encryptFn W) c w :
  (default ∅ (mAttrs c) = ∅ → encryptAttributes f c w = ("", w)) ∧
  (default ∅ (mAttrs c) ≠ ∅ →
     encryptAttributes f c w = f (default ∅ (mAttrs c)) (mKey c) w).
Proof.
  unfold encryptAttributes. split; intros Hattrs.
  - destruct (mAttrs c) as [attrs|]; [|done].
    simpl in Hattrs. by rewrite decide_True.
  - destruct (mAttrs c) as [attrs|]; [|done].
    simpl in *. by rewrite decide_False.
Qed.
End CallbackProperties.

(** ** Setting the cover *)

Lemma handle_overwritten_le_bytes (h : Z) :
  (0 ≤ h < 2 ^ 64)%Z → handle_overwritten (le_bytes HANDLESIZE h) = h.
Proof.
  intros Hh. unfold handle_overwritten.
  rewrite take_app_length' by (by rewrite length_le_bytes).
  apply le_value_le_bytes. by change (256 ^ Z.of_nat HANDLESIZE)%Z with (2 ^ 64)%Z.
Qed.

(** X9. After [setCover(UNDEF)] the cover reads as [UNDEF], and it still
    does after a rebase, also on a base that has a cover: the empty value
    that [setCover] stores is the delete marker of the rebase. The name is
    not touched. *)
Theorem Set_cover_setCover_UNDEF `{Base64} `{Base64Enc} (s : Set_)
    (baseAttrs : option (gmap string string)) :
  let s' := Set_setCover UNDEF s in
  Set_cover s' = UNDEF ∧
  Set_cover (Set_with_common (rebaseCommonAttrsOn baseAttrs (set_common s')) s')
    = UNDEF ∧
  getAttr nameTag (set_common s') = getAttr nameTag (set_common s).
Proof.
  cbv zeta. unfold Set_setCover. rewrite decide_True by done.
  assert (default ∅ (mAttrs (setAttr coverTag "" (set_common s))) !! coverTag
          = Some "") as Hmark.
  { unfold setAttr; simpl. apply lookup_insert_eq. }
  split; [|split].
  - unfold Set_cover; simpl. rewrite getAttr_lookup, Hmark. done.
  - unfold Set_cover; simpl. destruct baseAttrs as [base|].
    + rewrite getAttr_rebase, Hmark. done.
    + simpl. rewrite getAttr_lookup, Hmark. done.
  - simpl. rewrite !getAttr_lookup. unfold setAttr; simpl.
    by rewrite lookup_insert_ne.
Qed.

(** X10. A handle other than [UNDEF] that [setCover] stored is the handle
    that [cover] reads, provided the decoder gives back the eight bytes
    that the encoder was given for this handle; the name is not touched. *)
Theorem Set_cover_setCover `{Base64} `{Base64Enc} (h : Z) (s : Set_) :
  (0 ≤ h < 2 ^ 64)%Z →
  h ≠ UNDEF →
  btoa (le_bytes HANDLESIZE h) ≠ "" →
  atob (btoa (le_bytes HANDLESIZE h)) HANDLESIZE = le_bytes HANDLESIZE h →
  Set_cover (Set_setCover h s) = h ∧
  getAttr nameTag (set_common (Set_setCover h s)) = getAttr nameTag (set_common s).
Proof.
  intros Hh Hdef Htext Hback. unfold Set_setCover.
  rewrite decide_False by done.
  set (text := btoa (le_bytes HANDLESIZE h)) in *. split.
  - unfold Set_cover; simpl. rewrite getAttr_lookup. unfold setAttr; simpl.
    rewrite lookup_insert_eq; simpl. rewrite decide_True by done.
    rewrite Hback. by apply handle_overwritten_le_bytes.
  - simpl. rewrite !getAttr_lookup. unfold setAttr; simpl.
    by rewrite lookup_insert_ne.
Qed.

(** ** More on change bits *)

Lemma mask_test_mask_set `{ChangeType A} (c c' : A) (mask : Z) :
  (0 ≤ change_bit c)%Z → (0 ≤ change_bit c')%Z →
  mask_test c (mask_set c' mask)
  = mask_test c mask || bool_decide (change_bit c = change_bit c').
Proof.
  intros Hc Hc'. unfold mask_test, mask_set.
  rewrite Z.lor_spec, Z.shiftl_1_l, Z.pow2_bits_eqb by done. f_equal.
  destruct (Z.eqb_spec (change_bit c') (change_bit c)) as [Heq|Hne].
  - by rewrite bool_decide_eq_true_2.
  - by rewrite bool_decide_eq_false_2.
Qed.

Lemma hasAttrChanged_decide (tag : string) (a b : CommonSE) :
  hasAttrChanged tag (mAttrs a) b = bool_decide (getAttr tag b ≠ getAttr tag a).
Proof.
  unfold hasAttrChanged. rewrite (getAttr_lookup tag a).
  destruct (mAttrs a); simpl; [done|]. by rewrite lookup_empty.
Qed.

(** ** More on merging an update into a Set *)

(** X11. [Set::updateWith] swaps the attribute maps: the local Set gets the
    map of the update as it is, allocated or not, and the update is left
    with the map that the local Set had; nothing else of the update
    changes, and the encrypted blob of the local Set stays. *)
Theorem Set_updateWith_swap (incoming self : Set_) :
  let self' := (Set_updateWith incoming self).1.2 in
  let incoming' := (Set_updateWith incoming self).2 in
  mAttrs (set_common self') = mAttrs (set_common incoming) ∧
  mAttrs (set_common incoming') = mAttrs (set_common self) ∧
  mEncryptedAttrs (set_common self') = mEncryptedAttrs (set_common self) ∧
  mId (set_common incoming') = mId (set_common incoming) ∧
  mKey (set_common incoming') = mKey (set_common incoming) ∧
  mTs (set_common incoming') = mTs (set_common incoming) ∧
  mEncryptedAttrs (set_common incoming') = mEncryptedAttrs (set_common incoming) ∧
  mUser incoming' = mUser incoming ∧
  set_mChanges incoming' = set_mChanges incoming.
Proof.
  unfold Set_updateWith; simpl. repeat (case_match; simpl); done.
Qed.

(** X12. The change bits after [Set::updateWith]: the name bit is set when
    it was or when the name read differs between the local Set and the
    update, the cover bit likewise for the cover attribute; the bits of
    creation and removal are as before, and no bit is ever cleared. From a
    mask without bits, the result is true exactly when the name or the
    cover attribute differs. *)
Theorem Set_updateWith_changes (incoming self : Set_) :
  let self' := (Set_updateWith incoming self).1.2 in
  let nameDiffers :=
    bool_decide (getAttr nameTag (set_common self)
                 ≠ getAttr nameTag (set_common incoming)) in
  let coverDiffers :=
    bool_decide (getAttr coverTag (set_common self)
                 ≠ getAttr coverTag (set_common incoming)) in
  Set_hasChanged CH_NAME self' = Set_hasChanged CH_NAME self || nameDiffers ∧
  Set_hasChanged CH_COVER self' = Set_hasChanged CH_COVER self || coverDiffers ∧
  Set_hasChanged CH_NEW self' = Set_hasChanged CH_NEW self ∧
  Set_hasChanged CH_REMOVED self' = Set_hasChanged CH_REMOVED self ∧
  (set_mChanges self = 0%Z →
     (Set_updateWith incoming self).1.1 = nameDiffers || coverDiffers).
Proof.
  cbv zeta. unfold Set_updateWith; simpl.
  rewrite !hasAttrChanged_decide.
  assert (∀ ts c tag, getAttr tag (setTs ts c) = getAttr tag c) as Hts by done.
  rewrite Hts.
  destruct (bool_decide (getAttr nameTag (set_common self)
                         ≠ getAttr nameTag (set_common incoming))) eqn:Hn; simpl;
    rewrite ?Hts;
    destruct (bool_decide (getAttr coverTag (set_common self)
                           ≠ getAttr coverTag (set_common incoming))) eqn:Hc; simpl;
    unfold Set_hasChanged, Set_changes; simpl;
    rewrite ?mask_test_mask_set by done; simpl;
    rewrite ?orb_false_r, ?orb_true_r;
    (repeat split; try done; intros ->; done).
Qed.

(** ** More on the order of an Element *)

(** X13. Whatever the Element, after [setOrder o] it has the order [o];
    setting the same order again changes nothing more; the Set, the node,
    the shared members and the flag of the last update are untouched, and
    so is every change bit but the one of the order. *)
Theorem setOrder_installs (o : Z) (e : SetElement) :
  mOrder (setOrder o e) = Some o ∧
  order (setOrder o e) = o ∧
  hasOrder (setOrder o e) = true ∧
  setOrder o (setOrder o e) = setOrder o e ∧
  el_common (setOrder o e) = el_common e ∧
  mSetId (setOrder o e) = mSetId e ∧
  mNodeHandle (setOrder o e) = mNodeHandle e ∧
  mAttrsClearedByLastUpdate (setOrder o e) = mAttrsClearedByLastUpdate e ∧
  (∀ ch, ch ≠ CH_EL_ORDER →
     SetElement_hasChanged ch (setOrder o e) = SetElement_hasChanged ch e).
Proof.
  assert (mOrder (setOrder o e) = Some o) as Hset.
  { unfold setOrder. destruct (mOrder e) as [cur|] eqn:Hcur; [|done].
    destruct (decide (cur ≠ o)) as [|Heq%dec_stable]; [done|]. congruence. }
  split; [done|]. split; [by unfold order; rewrite Hset|].
  split; [by unfold hasOrder; rewrite Hset|].
  split.
  { unfold setOrder at 1. rewrite Hset. rewrite decide_False; [done|].
    intros Hne. by apply Hne. }
  assert (∀ ch e0, ch ≠ CH_EL_ORDER →
            SetElement_hasChanged ch (SetElement_setChanged CH_EL_ORDER e0)
            = SetElement_hasChanged ch e0) as Hother.
  { intros ch e0 Hch. unfold SetElement_hasChanged; simpl.
    rewrite mask_test_mask_set by (by destruct ch).
    destruct ch; simpl; try done; by rewrite orb_false_r. }
  unfold setOrder. destruct (mOrder e) as [cur|]; [destruct (decide (cur ≠ o))|];
    simpl; (do 4 (split; [done|])); intros ch Hch; try done;
    by rewrite Hother.
Qed.

(** ** More on merging an update into an Element *)

Lemma setOrder_mOrder (o : Z) (e : SetElement) : mOrder (setOrder o e) = Some o.
Proof.
  unfold setOrder. destruct (mOrder e) as [cur|] eqn:Hcur; [|done].
  destruct (decide (cur ≠ o)) as [|Heq%dec_stable]; [done|]. congruence.
Qed.

Lemma setOrder_el_mChanges (o : Z) (e : SetElement) :
  el_mChanges (setOrder o e)
  = if bool_decide (mOrder e ≠ Some o)
    then mask_set CH_EL_ORDER (el_mChanges e) else el_mChanges e.
Proof.
  unfold setOrder. destruct (mOrder e) as [cur|].
  - destruct (decide (cur ≠ o)) as [Hne|Heq%dec_stable].
    + by rewrite bool_decide_eq_true_2 by congruence.
    + subst cur. rewrite bool_decide_eq_false_2; [done|].
      intros Hne. by apply Hne.
  - by rewrite bool_decide_eq_true_2.
Qed.

Lemma setOrder_frame (o : Z) (e : SetElement) :
  el_common (setOrder o e) = el_common e ∧
  mSetId (setOrder o e) = mSetId e ∧
  mNodeHandle (setOrder o e) = mNodeHandle e ∧
  mAttrsClearedByLastUpdate (setOrder o e) = mAttrsClearedByLastUpdate e.
Proof. unfold setOrder. repeat (case_match; simpl); done. Qed.

(** The Element after [SetElement::updateWith], member by member, and the
    result of the call. *)
Lemma SetElement_updateWith_members (incoming self : SetElement) :
  let replaced :=
    hasAttrs (el_common incoming) || mAttrsClearedByLastUpdate incoming in
  let ordered :=
    match mOrder incoming with
    | Some o => bool_decide (mOrder self ≠ Some o)
    | None => false
    end in
  let named :=
    replaced && bool_decide (getAttr nameTag (el_common self)
                             ≠ getAttr nameTag (el_common incoming)) in
  let mask1 :=
    if ordered then mask_set CH_EL_ORDER (el_mChanges self) else el_mChanges self in
  let mask2 := if named then mask_set CH_EL_NAME mask1 else mask1 in
  SetElement_updateWith incoming self =
  (bool_decide (mask2 ≠ 0%Z),
   {| el_common :=
        {| mId := mId (el_common self); mKey := mKey (el_common self);
           mAttrs := if replaced then mAttrs (el_common incoming)
                     else mAttrs (el_common self);
           mTs := mTs (el_common incoming);
           mEncryptedAttrs := mEncryptedAttrs (el_common self) |};
      mSetId := mSetId self; mNodeHandle := mNodeHandle self;
      mOrder := match mOrder incoming with
                | Some o => Some o
                | None => mOrder self
                end;
      mAttrsClearedByLastUpdate := mAttrsClearedByLastUpdate self;
      el_mChanges := mask2 |},
   if replaced
   then SetElement_with_common
          (with_mAttrs (mAttrs (el_common self)) (el_common incoming)) incoming
   else incoming).
Proof.
  cbv zeta. unfold SetElement_updateWith.
  set (self1 := if hasOrder incoming then setOrder (order incoming) self else self).
  assert (el_common self1 = el_common self ∧ mSetId self1 = mSetId self ∧
          mNodeHandle self1 = mNodeHandle self ∧
          mAttrsClearedByLastUpdate self1 = mAttrsClearedByLastUpdate self)
    as (Hcommon & Hset & Hnode & Hflag).
  { unfold self1. destruct (hasOrder incoming); [apply setOrder_frame|done]. }
  assert (mOrder self1 = match mOrder incoming with
                         | Some o => Some o
                         | None => mOrder self
                         end) as Horder.
  { unfold self1, hasOrder, order. destruct (mOrder incoming) as [o|]; simpl;
      [apply setOrder_mOrder|done]. }
  assert (el_mChanges self1
          = if match mOrder incoming with
               | Some o => bool_decide (mOrder self ≠ Some o)
               | None => false
               end
            then mask_set CH_EL_ORDER (el_mChanges self) else el_mChanges self)
    as Hmask.
  { unfold self1, hasOrder, order. destruct (mOrder incoming) as [o|]; simpl;
      [apply setOrder_el_mChanges|done]. }
  assert (hasAttrChanged nameTag (mAttrs (el_common incoming))
            (el_common (SetElement_with_common
                          (setTs (mTs (el_common incoming)) (el_common self1)) self1))
          = bool_decide (getAttr nameTag (el_common self)
                         ≠ getAttr nameTag (el_common incoming))) as ->.
  { rewrite hasAttrChanged_decide. simpl.
    change (getAttr nameTag (setTs (mTs (el_common incoming)) (el_common self1)))
      with (getAttr nameTag (el_common self1)).
    by rewrite Hcommon. }
  clearbody self1.
  destruct (orb (hasAttrs (el_common incoming)) (mAttrsClearedByLastUpdate incoming));
    cbn [andb].
  - destruct (bool_decide (getAttr nameTag (el_common self)
                           ≠ getAttr nameTag (el_common incoming)));
      unfold SetElement_changes, SetElement_with_common, SetElement_setChanged,
        with_mAttrs, setTs; simpl;
      rewrite ?Hcommon, ?Hset, ?Hnode, ?Hflag, ?Horder, ?Hmask; done.
  - unfold SetElement_changes, SetElement_with_common, with_mAttrs, setTs; simpl.
    rewrite ?Hcommon, ?Hset, ?Hnode, ?Hflag, ?Horder, ?Hmask. done.
Qed.

(** X14. The order after [SetElement::updateWith]: the one of the update
    when the update has one, else the local one. So an order is never
    lost: the Element has an order afterwards exactly when it had one or
    the update has one. The order bit is set when it was, or when the
    update brings an order that the Element did not have. *)
Theorem SetElement_updateWith_order (incoming self : SetElement) :
  let self' := (SetElement_updateWith incoming self).1.2 in
  mOrder self' = match mOrder incoming with
                 | Some o => Some o
                 | None => mOrder self
                 end ∧
  hasOrder self' = hasOrder self || hasOrder incoming ∧
  SetElement_hasChanged CH_EL_ORDER self'
    = SetElement_hasChanged CH_EL_ORDER self
      || match mOrder incoming with
         | Some o => bool_decide (mOrder self ≠ Some o)
         | None => false
         end.
Proof.
  cbv zeta. rewrite SetElement_updateWith_members; simpl.
  split; [done|]. split.
  - unfold hasOrder. destruct (mOrder incoming), (mOrder self); done.
  - unfold SetElement_hasChanged; simpl.
    repeat (case_match; simpl);
      rewrite ?mask_test_mask_set by done; simpl;
      rewrite ?orb_false_r, ?orb_true_r; done.
Qed.

(** X15. [SetElement::updateWith] takes the timestamp of the update
    whatever it is, and leaves the id, the key, the encrypted blob, the
    Set, the node and the flag of the last update of the local Element as
    they were; it sets no bit of creation or removal. *)
Theorem SetElement_updateWith_ts_identity (incoming self : SetElement) :
  let self' := (SetElement_updateWith incoming self).1.2 in
  mTs (el_common self') = mTs (el_common incoming) ∧
  mId (el_common self') = mId (el_common self) ∧
  mKey (el_common self') = mKey (el_common self) ∧
  mEncryptedAttrs (el_common self') = mEncryptedAttrs (el_common self) ∧
  mSetId self' = mSetId self ∧
  mNodeHandle self' = mNodeHandle self ∧
  mAttrsClearedByLastUpdate self' = mAttrsClearedByLastUpdate self ∧
  SetElement_hasChanged CH_EL_NEW self' = SetElement_hasChanged CH_EL_NEW self ∧
  SetElement_hasChanged CH_EL_REMOVED self'
    = SetElement_hasChanged CH_EL_REMOVED self.
Proof.
  cbv zeta. rewrite SetElement_updateWith_members; simpl.
  do 7 (split; [done|]).
  unfold SetElement_hasChanged; simpl.
  split; repeat (case_match; simpl);
    rewrite ?mask_test_mask_set by done; simpl;
    rewrite ?orb_false_r; done.
Qed.

(** X16. When the update has an attribute map, be it empty, or carries the
    flag of cleared attributes, [SetElement::updateWith] swaps the maps:
    the local Element gets the map of the update, the update is left with
    the local one, and the name bit is set when it was or when the name
    read differs. When the update has neither, the update is handed back
    as it came and the name bit is as before. *)
Theorem SetElement_updateWith_attrs_replaced (incoming self : SetElement) :
  let self' := (SetElement_updateWith incoming self).1.2 in
  let incoming' := (SetElement_updateWith incoming self).2 in
  let nameDiffers :=
    bool_decide (getAttr nameTag (el_common self)
                 ≠ getAttr nameTag (el_common incoming)) in
  (hasAttrs (el_common incoming) || mAttrsClearedByLastUpdate incoming = true →
     mAttrs (el_common self') = mAttrs (el_common incoming) ∧
     mAttrs (el_common incoming') = mAttrs (el_common self) ∧
     SetElement_hasChanged CH_EL_NAME self'
       = SetElement_hasChanged CH_EL_NAME self || nameDiffers) ∧
  (hasAttrs (el_common incoming) || mAttrsClearedByLastUpdate incoming = false →
     incoming' = incoming ∧
     SetElement_hasChanged CH_EL_NAME self'
       = SetElement_hasChanged CH_EL_NAME self).
Proof.
  cbv zeta. rewrite SetElement_updateWith_members; simpl.
  split; intros ->; simpl.
  - do 2 (split; [done|]). unfold SetElement_hasChanged; simpl.
    repeat (case_match; simpl);
      rewrite ?mask_test_mask_set by done; simpl;
      rewrite ?orb_false_r, ?orb_true_r; done.
  - split; [done|]. unfold SetElement_hasChanged; simpl.
    repeat (case_match; simpl);
      rewrite ?mask_test_mask_set by done; simpl;
      rewrite ?orb_false_r; done.
Qed.

(** X17. The result of [SetElement::updateWith] on an Element without
    change bits: true exactly when the update brings an order that the
    Element did not have, or when the maps are swapped and the name read
    differs. *)
Theorem SetElement_updateWith_result (incoming self : SetElement) :
  el_mChanges self = 0%Z →
  (SetElement_updateWith incoming self).1.1
  = match mOrder incoming with
    | Some o => bool_decide (mOrder self ≠ Some o)
    | None => false
    end
    || ((hasAttrs (el_common incoming) || mAttrsClearedByLastUpdate incoming)
        && bool_decide (getAttr nameTag (el_common self)
                        ≠ getAttr nameTag (el_common incoming))).
Proof.
  intros Hclean. rewrite SetElement_updateWith_members; simpl.
  rewrite Hclean.
  destruct (match mOrder incoming with
            | Some o => bool_decide (mOrder self ≠ Some o)
            | None => false
            end);
    destruct (hasAttrs (el_common incoming) || mAttrsClearedByLastUpdate incoming);
    destruct (bool_decide (getAttr nameTag (el_common self)
                           ≠ getAttr nameTag (el_common incoming)));
    done.
Qed.

(** ** More on the cache format *)

Lemma serialize_attr_block_allocated `{Cacheable} (attrs : option (gmap string string)) :
  serialize_attr_block (Some (default ∅ attrs)) = serialize_attr_block attrs.
Proof. unfold serialize_attr_block. destruct attrs as [m|]; simpl; done. Qed.

Lemma foldl_insert_lookup_notin (items : list (string * string))
    (acc : gmap string string) (tag : string) :
  tag ∉ items.*1 →
  foldl (λ m kv, <[kv.1 := kv.2]> m) acc items !! tag = acc !! tag.
Proof.
  revert acc. induction items as [|[k v] items IH]; intros acc Hnotin; [done|].
  rewrite fmap_cons in Hnotin. apply not_elem_of_cons in Hnotin as [Hne Hnotin].
  simpl. rewrite IH by done. by rewrite lookup_insert_ne.
Qed.

Lemma foldl_insert_size (items : list (string * string)) (acc : gmap string string) :
  size (foldl (λ m kv, <[kv.1 := kv.2]> m) acc items) ≤ size acc + length items.
Proof.
  revert acc. induction items as [|[k v] items IH]; intros acc; simpl; [lia|].
  specialize (IH (<[k := v]> acc)).
  pose proof (map_size_insert k v acc) as Hins.
  destruct (acc !! k); unfold id in Hins; lia.
Qed.

Section MoreFormatProperties.
Context {C : Cacheable} {nodehandle_ok : Z → Prop} {string_ok : string → Prop}.
Hypothesis laws : CacheableLaws C nodehandle_ok string_ok.

Lemma unserialize_attr_tail_serialize (attrs : option (gmap string string))
    (extra : list byte) :
  attrs_fit string_ok attrs →
  unserialize_attr_tail
    (serialize_attr_block attrs ++ serializeexpansionflags ++ extra)
  = Some (default ∅ attrs).
Proof.
  intros Hfit. unfold unserialize_attr_tail.
  destruct (unserialize_attr_block laws attrs (serializeexpansionflags ++ extra) Hfit)
    as (d & -> & Hloop).
  cbn [mbind option_bind]. rewrite Nat2Z.id, Hloop. cbn [mbind option_bind].
  destruct (expansionflags_roundtrip _ _ _ laws extra) as [flags ->]. done.
Qed.

Lemma Set_unserialize_serialize_app (s : Set_) (extra : list byte) :
  Set_fits string_ok s →
  Set_unserialize ((Set_serialize s []).2 ++ extra) =
  Some {| set_common :=
            {| mId := mId (set_common s); mKey := mKey (set_common s);
               mAttrs := Some (default ∅ (mAttrs (set_common s)));
               mTs := mTs (set_common s); mEncryptedAttrs := None |};
          mUser := mUser s; set_mChanges := 0 |}.
Proof.
  intros [(Hid & Hts & Hkey & Hattrs) Huser].
  rewrite Set_unserialize_tail. unfold Set_serialize. cbn [snd app].
  rewrite <- !app_assoc.
  rewrite (handle_roundtrip _ _ _ laws) by done. cbn [mbind option_bind].
  rewrite (handle_roundtrip _ _ _ laws) by done. cbn [mbind option_bind].
  rewrite (compressed64_roundtrip _ _ _ laws) by done. cbn [mbind option_bind].
  rewrite (string_roundtrip _ _ _ laws) by done. cbn [mbind option_bind].
  by rewrite unserialize_attr_tail_serialize.
Qed.

Lemma SetElement_unserialize_serialize_app (e : SetElement) (extra : list byte) :
  SetElement_fits nodehandle_ok string_ok e →
  SetElement_unserialize ((SetElement_serialize e []).2 ++ extra) =
  Some {| el_common :=
            {| mId := mId (el_common e); mKey := mKey (el_common e);
               mAttrs := Some (default ∅ (mAttrs (el_common e)));
               mTs := mTs (el_common e); mEncryptedAttrs := None |};
          mSetId := mSetId e; mNodeHandle := mNodeHandle e;
          mOrder := Some (order e);
          mAttrsClearedByLastUpdate := false;
          el_mChanges := mask_set CH_EL_ORDER 0 |}.
Proof.
  intros ((Hid & Hts & Hkey & Hattrs) & Hsid & Hnode & Horder).
  rewrite SetElement_unserialize_tail. unfold SetElement_serialize. cbn [snd app].
  rewrite <- !app_assoc.
  rewrite (handle_roundtrip _ _ _ laws) by done. cbn [mbind option_bind].
  rewrite (handle_roundtrip _ _ _ laws) by done. cbn [mbind option_bind].
  rewrite (nodehandle_roundtrip _ _ _ laws) by done. cbn [mbind option_bind].
  unfold order in Horder.
  rewrite (i64_roundtrip _ _ _ laws) by (by destruct (mOrder e)).
  cbn [mbind option_bind].
  rewrite (compressed64_roundtrip _ _ _ laws) by done. cbn [mbind option_bind].
  rewrite (string_roundtrip _ _ _ laws) by done. cbn [mbind option_bind].
  rewrite unserialize_attr_tail_serialize by done. cbn [mbind option_bind].
  unfold order. by destruct (mOrder e).
Qed.

(** X18. The decoders read the record at the head of the buffer and ignore
    what follows it: bytes after the encoding of a Set or of an Element
    that fits the format do not change what is decoded. *)
Theorem unserialize_ignores_trailing_bytes (extra : list byte) :
  (∀ s, Set_fits string_ok s →
     Set_unserialize ((Set_serialize s []).2 ++ extra)
     = Set_unserialize (Set_serialize s []).2) ∧
  (∀ e, SetElement_fits nodehandle_ok string_ok e →
     SetElement_unserialize ((SetElement_serialize e []).2 ++ extra)
     = SetElement_unserialize (SetElement_serialize e []).2).
Proof.
  split.
  - intros s Hfits. rewrite Set_unserialize_serialize_app by done.
    by rewrite (Set_unserialize_serialize laws).
  - intros e Hfits. rewrite SetElement_unserialize_serialize_app by done.
    by rewrite (SetElement_unserialize_serialize laws).
Qed.

(** X19. Decoding normalises once and for all: the object decoded from the
    encoding of a Set or of an Element that fits the format has the very
    same encoding, and decoding that encoding gives the same object
    again. *)
Theorem unserialize_serialize_stable :
  (∀ s, Set_fits string_ok s →
     ∃ s', Set_unserialize (Set_serialize s []).2 = Some s' ∧
       Set_serialize s' [] = Set_serialize s [] ∧
       Set_unserialize (Set_serialize s' []).2 = Some s') ∧
  (∀ e, SetElement_fits nodehandle_ok string_ok e →
     ∃ e', SetElement_unserialize (SetElement_serialize e []).2 = Some e' ∧
       SetElement_serialize e' [] = SetElement_serialize e [] ∧
       SetElement_unserialize (SetElement_serialize e' []).2 = Some e').
Proof.
  split.
  - intros s Hfits. rewrite (Set_unserialize_serialize laws) by done.
    eexists. split; [done|].
    assert (∀ s' : Set_,
      s' = {| set_common :=
                {| mId := mId (set_common s); mKey := mKey (set_common s);
                   mAttrs := Some (default ∅ (mAttrs (set_common s)));
                   mTs := mTs (set_common s); mEncryptedAttrs := None |};
              mUser := mUser s; set_mChanges := 0 |} →
      Set_serialize s' [] = Set_serialize s []) as Hsame.
    { intros s' ->. unfold Set_serialize; simpl.
      by rewrite serialize_attr_block_allocated. }
    split; [by apply Hsame|].
    rewrite (Hsame _ eq_refl). by apply (Set_unserialize_serialize laws).
  - intros e Hfits. rewrite (SetElement_unserialize_serialize laws) by done.
    eexists. split; [done|].
    assert (∀ e' : SetElement,
      e' = {| el_common :=
                {| mId := mId (el_common e); mKey := mKey (el_common e);
                   mAttrs := Some (default ∅ (mAttrs (el_common e)));
                   mTs := mTs (el_common e); mEncryptedAttrs := None |};
              mSetId := mSetId e; mNodeHandle := mNodeHandle e;
              mOrder := Some (order e);
              mAttrsClearedByLastUpdate := false;
              el_mChanges := mask_set CH_EL_ORDER 0 |} →
      SetElement_serialize e' [] = SetElement_serialize e []) as Hsame.
    { intros e' ->. unfold SetElement_serialize; simpl.
      rewrite serialize_attr_block_allocated. unfold order.
      by destruct (mOrder e). }
    split; [by apply Hsame|].
    rewrite (Hsame _ eq_refl). by apply (SetElement_unserialize_serialize laws).
Qed.

(** X20. The attribute loop stores each entry under its tag as it comes:
    when a record lists a tag more than once, the value listed last is the
    one decoded, and the decoded map has at most as many entries as the
    record announces. *)
Theorem unserialize_attrs_last_wins (before after : list (string * string))
    (tag value : string) (rest : list byte) :
  let items := before ++ (tag, value) :: after in
  Forall (λ kv, string_ok kv.1 ∧ string_ok kv.2) items →
  tag ∉ after.*1 →
  ∃ attrs,
    unserialize_attrs (length items) ∅ (serialize_attrs items ++ rest)
      = Some (attrs, rest) ∧
    attrs !! tag = Some value ∧
    size attrs ≤ length items.
Proof.
  cbv zeta. intros Hok Hlast.
  rewrite (unserialize_attrs_serialize laws) by done.
  eexists. split; [done|]. split.
  - rewrite foldl_app. simpl. rewrite foldl_insert_lookup_notin by done.
    apply lookup_insert_eq.
  - pose proof (foldl_insert_size (before ++ (tag, value) :: after) ∅) as Hsize.
    by rewrite map_size_empty in Hsize.
Qed.
End MoreFormatProperties.

Section DecodedObjects.
Context {C : Cacheable}.

Lemma Set_unserialize_Some (d : list byte) (s : Set_) :
  Set_unserialize d = Some s →
  ∃ id u ts k attrs,
    s = Set_with_common (setTs ts (CommonSE_new id k attrs)) (Set_new id k u attrs).
Proof.
  rewrite Set_unserialize_tail.
  destruct (unserializehandle d) as [[id d1]|]; [|done]. cbn [mbind option_bind].
  destruct (unserializehandle d1) as [[u d2]|]; [|done]. cbn [mbind option_bind].
  destruct (unserializecompressed64 d2) as [[ts d3]|]; [|done].
  cbn [mbind option_bind].
  destruct (unserializestring d3) as [[k d4]|]; [|done]. cbn [mbind option_bind].
  destruct (unserialize_attr_tail d4) as [attrs|]; [|done].
  cbn [mbind option_bind]. intros [= <-]. by exists id, u, ts, k, attrs.
Qed.

(** X21. Whatever the bytes, an object that a decoder produces has an
    allocated attribute map and no encrypted blob. A decoded Set has no
    change bit, so [changes()] is false of it; a decoded Element has the
    flag of cleared attributes off and exactly the order bit set, so
    [changes()] is true of it though nothing was merged. *)
Theorem unserialize_fresh_state (d : list byte) :
  (∀ s, Set_unserialize d = Some s →
     hasAttrs (set_common s) = true ∧
     mEncryptedAttrs (set_common s) = None ∧
     set_mChanges s = 0%Z ∧
     Set_changes s = false) ∧
  (∀ e, SetElement_unserialize d = Some e →
     hasAttrs (el_common e) = true ∧
     mEncryptedAttrs (el_common e) = None ∧
     mAttrsClearedByLastUpdate e = false ∧
     el_mChanges e = mask_set CH_EL_ORDER 0 ∧
     SetElement_changes e = true ∧
     SetElement_hasChanged CH_EL_NAME e = false).
Proof.
  split.
  - intros s (id & u & ts & k & attrs & ->)%Set_unserialize_Some. done.
  - intros e Hel.
    apply SetElement_unserialize_Some in Hel
      as (sid & d1 & eid & d2 & h & d3 & o & d4 & ts & d5 & k & d6 & attrs
          & _ & _ & _ & _ & _ & _ & _ & ->).
    done.
Qed.
End DecodedObjects.

(** ** Node tree processors *)

Lemma walk_length {St N : Type} (proc : St → N → St * N) (st : St) (nodes : list N) :
  length (TreeProc.walk proc st nodes).2 = length nodes.
Proof.
  revert st. induction nodes as [|n nodes IH]; intros st; simpl; [done|].
  destruct (proc st n) as [st1 n'].
  specialize (IH st1). destruct (TreeProc.walk proc st1 nodes) as [st2 done'].
  simpl in *. by rewrite IH.
Qed.

Lemma TreeProcForeignKeys_proc_eq (client : TreeProc.MegaClient) (n : TreeProc.Node) :
  TreeProc.TreeProcForeignKeys_proc client n =
  (TreeProc.with_nodekeyrewrite
     (TreeProc.nodekeyrewrite client
        ++ (if TreeProc.foreignkey n then [TreeProc.nodehandle n] else []))
     client,
   TreeProc.with_foreignkey false n).
Proof.
  unfold TreeProc.TreeProcForeignKeys_proc.
  destruct n as [h o t [] a c]; simpl; [done|].
  rewrite app_nil_r. by destruct client.
Qed.

(** X22. A walk with [TreeProcForeignKeys]: the handles of the nodes whose
    key was foreign are appended to [nodekeyrewrite] in the order of the
    walk, each once; afterwards no node of the walk has a foreign key and
    nothing else of a node or of the client has changed, so a second walk
    over the same nodes appends nothing. *)
Theorem TreeProcForeignKeys_walk (client : TreeProc.MegaClient)
    (nodes : list TreeProc.Node) :
  let r := TreeProc.walk TreeProc.TreeProcForeignKeys_proc client nodes in
  TreeProc.nodekeyrewrite r.1
    = TreeProc.nodekeyrewrite client
      ++ (TreeProc.nodehandle
            <$> filter (λ n, TreeProc.foreignkey n = true) nodes) ∧
  r.2 = TreeProc.with_foreignkey false <$> nodes ∧
  TreeProc.me r.1 = TreeProc.me client ∧
  TreeProc.calls r.1 = TreeProc.calls client ∧
  TreeProc.walk TreeProc.TreeProcForeignKeys_proc r.1 r.2 = r.
Proof.
  cbv zeta. revert client. induction nodes as [|n nodes IH]; intros client.
  - simpl. rewrite app_nil_r. done.
  - cbn [TreeProc.walk]. rewrite TreeProcForeignKeys_proc_eq.
    set (client1 := TreeProc.with_nodekeyrewrite _ client).
    destruct (IH client1) as (Hkeys & Hnodes & Hme & Hcalls & Hagain).
    destruct (TreeProc.walk TreeProc.TreeProcForeignKeys_proc client1 nodes)
      as [client2 done'] eqn:Hwalk.
    simpl in *. subst done'. repeat split; try done.
    + rewrite Hkeys. unfold client1; simpl. rewrite <- app_assoc. f_equal.
      rewrite filter_cons. destruct (TreeProc.foreignkey n) eqn:Hforeign.
      * by rewrite decide_True.
      * by rewrite decide_False.
    + by rewrite Hagain.
Qed.

Lemma ISUNDEF_UNDEF (h : Z) :
  (0 ≤ h < 2 ^ 64)%Z → TreeProc.ISUNDEF h = bool_decide (h = UNDEF).
Proof.
  intros Hh. unfold TreeProc.ISUNDEF, UNDEF. apply bool_decide_ext.
  split.
  - intros Hmod. destruct (decide (h = 2 ^ 64 - 1)%Z) as [|Hne]; [done|].
    rewrite Z.mod_small in Hmod by lia. lia.
  - intros ->. done.
Qed.

(** X23. [TreeProcDel::proc] after [setOriginatingUser(h)]: the node comes
    back marked as removed, otherwise as it was, and is notified in that
    state; then the shared-node alert is raised for the acting user, who is
    [h], or the owner of the node when [h] is [UNDEF], unless that user is
    the client itself. So a removal by the client itself raises no alert,
    whoever owns the node. *)
Theorem TreeProcDel_proc_alert (h : Z) (tp : TreeProc.TreeProcDel)
    (client : TreeProc.MegaClient) (n : TreeProc.Node) :
  (0 ≤ h < 2 ^ 64)%Z →
  let r := TreeProc.TreeProcDel_proc (TreeProc.setOriginatingUser h tp) client n in
  let user := if decide (h = UNDEF) then TreeProc.owner n else h in
  r.2 = TreeProc.with_changed
          {| TreeProc.removed := true;
             TreeProc.attrs := TreeProc.attrs (TreeProc.changed n) |} n ∧
  TreeProc.calls r.1
    = TreeProc.calls client
      ++ TreeProc.notifyNode r.2
         :: (if decide (user = TreeProc.me client) then []
             else [TreeProc.noteSharedNode user (TreeProc.type n) 0 r.2]) ∧
  TreeProc.nodekeyrewrite r.1 = TreeProc.nodekeyrewrite client ∧
  TreeProc.me r.1 = TreeProc.me client.
Proof.
  intros Hh. cbv zeta. unfold TreeProc.TreeProcDel_proc. simpl.
  rewrite ISUNDEF_UNDEF by done.
  destruct (decide (h = UNDEF)) as [->|Hdef].
  - rewrite bool_decide_eq_true_2 by done.
    destruct (decide (TreeProc.owner n ≠ TreeProc.me client)) as [Hne|Heq%dec_stable];
      simpl.
    + rewrite decide_False by done. by rewrite <- app_assoc.
    + by rewrite decide_True.
  - rewrite bool_decide_eq_false_2 by done.
    destruct (decide (h ≠ TreeProc.me client)) as [Hne|Heq%dec_stable]; simpl.
    + rewrite decide_False by done. by rewrite <- app_assoc.
    + by rewrite decide_True.
Qed.

(** X24. [TreeProcApplyKey::proc], whatever [applykey] does: a node without
    [attrstring] is left alone and the key is not applied to it; a node is
    notified exactly when it had an [attrstring] and applying the key took
    it away, and then it is notified once, marked as changed in its
    attributes. *)
Theorem TreeProcApplyKey_proc_notifies (applykey : TreeProc.Node → TreeProc.Node)
    (client : TreeProc.MegaClient) (n : TreeProc.Node) :
  let r := TreeProc.TreeProcApplyKey_proc applykey client n in
  (TreeProc.attrstring n = None → r = (client, n)) ∧
  (TreeProc.calls r.1 ≠ TreeProc.calls client
     ↔ is_Some (TreeProc.attrstring n)
       ∧ TreeProc.attrstring (applykey n) = None) ∧
  (TreeProc.calls r.1 ≠ TreeProc.calls client →
     TreeProc.calls r.1 = TreeProc.calls client ++ [TreeProc.notifyNode r.2] ∧
     TreeProc.attrs (TreeProc.changed r.2) = true ∧
     TreeProc.attrstring r.2 = None) ∧
  (TreeProc.calls r.1 = TreeProc.calls client →
     is_Some (TreeProc.attrstring n) → r.2 = applykey n).
Proof.
  cbv zeta. unfold TreeProc.TreeProcApplyKey_proc.
  destruct (TreeProc.attrstring n) as [a|] eqn:Hattr.
  - destruct (TreeProc.attrstring (applykey n)) as [a'|] eqn:Hleft; simpl.
    + split; [done|]. split; [|split].
      * split; [done|]. intros [_ Hnone]. done.
      * done.
      * done.
    + assert (TreeProc.calls client ++ [TreeProc.notifyNode
                (TreeProc.with_changed
                   {| TreeProc.removed := TreeProc.removed (TreeProc.changed (applykey n));
                      TreeProc.attrs := true |} (applykey n))]
              ≠ TreeProc.calls client) as Hgrows.
      { intros Heq%(f_equal length). rewrite length_app in Heq. simpl in Heq. lia. }
      split; [done|]. split; [|split].
      * split; [intros _; split; [by eexists|done]|done].
      * done.
      * done.
  - simpl. split; [done|]. split; [|split].
    + split; [done|]. intros [[a Ha] _]. done.
    + done.
    + intros _ [a Ha]. done.
Qed.

(** X25. A walk with [LocalTreeProcMove]: every node is counted, whether it
    moves or not; every node ends in the new [Sync], being the same object
    as before; the state caches are called twice for each node that was in
    another [Sync] and not at all for the others, so a second walk over the
    same nodes calls no cache. *)
Theorem LocalTreeProcMove_walk (tp : TreeProc.LocalTreeProcMove)
    (nodes : list TreeProc.LocalNode) :
  (TreeProc.nc tp + Z.of_nat (length nodes) < 2 ^ 31)%Z →
  let r := TreeProc.walk TreeProc.LocalTreeProcMove_proc tp nodes in
  TreeProc.nc r.1 = (TreeProc.nc tp + Z.of_nat (length nodes))%Z ∧
  TreeProc.newsync r.1 = TreeProc.newsync tp ∧
  r.2 = (λ l, {| TreeProc.ident := TreeProc.ident l;
                 TreeProc.sync := TreeProc.newsync tp |}) <$> nodes ∧
  length (TreeProc.cache_calls r.1)
    = length (TreeProc.cache_calls tp)
      + 2 * length (filter (λ l, TreeProc.sync l ≠ TreeProc.newsync tp) nodes) ∧
  TreeProc.cache_calls (TreeProc.walk TreeProc.LocalTreeProcMove_proc r.1 r.2).1
    = TreeProc.cache_calls r.1.
Proof.
  intros _. cbv zeta.
  assert (∀ tp0 ls, Forall (λ l, TreeProc.sync l = TreeProc.newsync tp0) ls →
            TreeProc.cache_calls
              (TreeProc.walk TreeProc.LocalTreeProcMove_proc tp0 ls).1
            = TreeProc.cache_calls tp0) as Hquiet.
  { intros tp0 ls. revert tp0. induction ls as [|l ls IH]; intros tp0 Hall; [done|].
    apply Forall_cons in Hall as [Hl Hall].
    cbn [TreeProc.walk]. unfold TreeProc.LocalTreeProcMove_proc at 1.
    rewrite decide_False by (intros Hne; by apply Hne).
    set (tp1 := TreeProc.mkLocalTreeProcMove _ _ _).
    specialize (IH tp1 Hall).
    destruct (TreeProc.walk TreeProc.LocalTreeProcMove_proc tp1 ls) as [tp2 ls'].
    simpl in *. done. }
  revert tp. induction nodes as [|l nodes IH]; intros tp.
  - simpl. repeat split; try done; lia.
  - cbn [TreeProc.walk].
    destruct (TreeProc.LocalTreeProcMove_proc tp l) as [tp1 l'] eqn:Hproc.
    assert (TreeProc.newsync tp1 = TreeProc.newsync tp ∧
            TreeProc.nc tp1 = (TreeProc.nc tp + 1)%Z ∧
            l' = {| TreeProc.ident := TreeProc.ident l;
                    TreeProc.sync := TreeProc.newsync tp |} ∧
            length (TreeProc.cache_calls tp1)
            = length (TreeProc.cache_calls tp)
              + (if decide (TreeProc.sync l ≠ TreeProc.newsync tp) then 2 else 0))
      as (Hsync1 & Hnc1 & Hl' & Hcalls1).
    { unfold TreeProc.LocalTreeProcMove_proc in Hproc.
      destruct (decide (TreeProc.newsync tp ≠ TreeProc.sync l)) as [Hne|Heq%dec_stable];
        injection Hproc as <- <-; simpl.
      - rewrite decide_True by done. rewrite length_app. simpl. repeat split; lia.
      - rewrite decide_False by (intros Hne; by apply Hne).
        repeat split; [|lia]. destruct l; simpl in *. by subst. }
    destruct (IH tp1) as (Hnc & Hsync & Hnodes & Hcalls & Hagain).
    destruct (TreeProc.walk TreeProc.LocalTreeProcMove_proc tp1 nodes)
      as [tp2 nodes'] eqn:Hwalk.
    simpl in *. rewrite Hsync1 in *. subst nodes' l'.
    split; [lia|]. split; [done|]. split; [done|]. split.
    + rewrite Hcalls, Hcalls1, filter_cons.
      destruct (decide (TreeProc.sync l ≠ TreeProc.newsync tp)); simpl; lia.
    + apply (Hquiet tp2 (_ :: _)). rewrite Hsync.
      apply Forall_cons. split; [done|].
      apply Forall_fmap, Forall_true. done.
Qed.

(** * The further properties on the sample objects *)

Lemma decryptAttributes_success_witness :
  ∃ c', decryptAttributes succeeding_decrypt (sample_encrypted "blob") 0
          = (true, c', 1) ∧
        mAttrs c' = Some (<["n" := "A"]> ∅) ∧ mEncryptedAttrs c' = None.
Proof.
  destruct (decryptAttributes_success succeeding_decrypt (sample_encrypted "blob")
              0 "blob" (<["n" := "A"]> ∅) 1)
    as (c' & Hcall & Hattrs & Hblob & _).
  - reflexivity.
  - discriminate.
  - reflexivity.
  - by exists c'.
Defined.

Lemma decryptAttributes_settled_witness :
  decryptAttributes failing_decrypt
    (decryptAttributes succeeding_decrypt (sample_encrypted "blob") 0).1.2 5
  = (true, (decryptAttributes succeeding_decrypt (sample_encrypted "blob") 0).1.2, 5).
Proof.
  apply (decryptAttributes_settled succeeding_decrypt failing_decrypt
           (sample_encrypted "blob") _ 0 1 5).
  reflexivity.
Defined.

Lemma Set_cover_setCover_witness :
  Set_cover (H := mega_atob)
    (Set_setCover (H := mega_btoa) sample_handle sample_set) = sample_handle.
Proof.
  apply (Set_cover_setCover (H := mega_atob) (H0 := mega_btoa) sample_handle sample_set).
  - vm_compute. split; congruence.
  - vm_compute. congruence.
  - vm_compute. congruence.
  - vm_compute. reflexivity.
Defined.

Lemma SetElement_updateWith_result_witness :
  (SetElement_updateWith (sample_update false) sample_element).1.1 = false ∧
  (SetElement_updateWith (sample_update true) sample_element).1.1 = true.
Proof.
  split.
  - rewrite (SetElement_updateWith_result (sample_update false) sample_element)
      by reflexivity.
    reflexivity.
  - rewrite (SetElement_updateWith_result (sample_update true) sample_element)
      by reflexivity.
    reflexivity.
Defined.

Lemma unserialize_ignores_trailing_bytes_witness :
  Set_unserialize (C := mega_cacheable)
    ((Set_serialize (C := mega_cacheable) sample_set []).2 ++ [x01; x02])
  = Set_unserialize (C := mega_cacheable)
      (Set_serialize (C := mega_cacheable) sample_set []).2 ∧
  SetElement_unserialize (C := mega_cacheable)
    ((SetElement_serialize (C := mega_cacheable) sample_element []).2 ++ [x01; x02])
  = SetElement_unserialize (C := mega_cacheable)
      (SetElement_serialize (C := mega_cacheable) sample_element []).2.
Proof.
  destruct (unserialize_ignores_trailing_bytes mega_cacheable_laws [x01; x02])
    as [HS HE].
  split.
  - apply HS. fits_by_computation.
  - apply HE. fits_by_computation.
Defined.

Lemma unserialize_serialize_stable_witness :
  (∃ s', Set_unserialize (C := mega_cacheable)
           (Set_serialize (C := mega_cacheable) sample_set []).2 = Some s' ∧
         Set_serialize (C := mega_cacheable) s' []
         = Set_serialize (C := mega_cacheable) sample_set []) ∧
  (∃ e', SetElement_unserialize (C := mega_cacheable)
           (SetElement_serialize (C := mega_cacheable) sample_element []).2 = Some e' ∧
         SetElement_serialize (C := mega_cacheable) e' []
         = SetElement_serialize (C := mega_cacheable) sample_element []).
Proof.
  destruct (unserialize_serialize_stable mega_cacheable_laws) as [HS HE].
  split.
  - destruct (HS sample_set) as (s' & Hs' & Hsame & _).
    + fits_by_computation.
    + by exists s'.
  - destruct (HE sample_element) as (e' & He' & Hsame & _).
    + fits_by_computation.
    + by exists e'.
Defined.

Lemma unserialize_attrs_last_wins_witness :
  ∃ attrs,
    unserialize_attrs (C := mega_cacheable) 2 ∅
      (serialize_attrs (C := mega_cacheable) sample_repeated_items ++ [])
      = Some (attrs, []) ∧
    attrs !! "n" = Some "B" ∧ size attrs ≤ 2.
Proof.
  apply (unserialize_attrs_last_wins mega_cacheable_laws [("n", "A")] [] "n" "B" []).
  - simpl.
    repeat (apply Forall_cons; split;
            [split; unfold mega_string_ok; simpl; lia|]).
    constructor.
  - apply not_elem_of_nil.
Defined.

Lemma TreeProcDel_proc_alert_witness :
  TreeProc.calls
    (TreeProc.TreeProcDel_proc
       (TreeProc.setOriginatingUser 7 (TreeProc.mkTreeProcDel UNDEF))
       sample_client sample_node).1
  = [TreeProc.notifyNode
       (TreeProc.TreeProcDel_proc
          (TreeProc.setOriginatingUser 7 (TreeProc.mkTreeProcDel UNDEF))
          sample_client sample_node).2].
Proof.
  apply (TreeProcDel_proc_alert 7 (TreeProc.mkTreeProcDel UNDEF)
           sample_client sample_node).
  lia.
Defined.

Lemma LocalTreeProcMove_walk_witness :
  TreeProc.nc
    (TreeProc.walk TreeProc.LocalTreeProcMove_proc
       (TreeProc.LocalTreeProcMove_new 2) sample_localnodes).1 = 2%Z ∧
  length (TreeProc.cache_calls
            (TreeProc.walk TreeProc.LocalTreeProcMove_proc
               (TreeProc.LocalTreeProcMove_new 2) sample_localnodes).1) = 2.
Proof.
  destruct (LocalTreeProcMove_walk (TreeProc.LocalTreeProcMove_new 2)
              sample_localnodes) as (Hnc & _ & _ & Hcalls & _).
  - simpl. lia.
  - split; [exact Hnc|exact Hcalls].
Defined.

(** * Input cut short, and counts that do not fit *)

(** ** Strict readers *)

Lemma reader_strict_ret {A : Type} (v : A) : reader_strict (reader_ret v).
Proof.
  intros d v' d' [= <- <-]. exists []. split; [done|]. split; [done|].
  simpl. lia.
Qed.

Lemma reader_strict_fail {A : Type} : reader_strict (λ _, None : option (A * list byte)).
Proof. by intros d v d'. Qed.

Lemma reader_strict_bind {A B : Type} (r : Reader A) (k : A → Reader B) :
  reader_strict r → (∀ v, reader_strict (k v)) → reader_strict (reader_bind r k).
Proof.
  intros Hr Hk d u d2 Hbind. unfold reader_bind in Hbind.
  destruct (r d) as [[v d1]|] eqn:Hrd; [|done].
  destruct (Hr _ _ _ Hrd) as (w1 & -> & Hframe1 & Hcut1).
  destruct (Hk v _ _ _ Hbind) as (w2 & -> & Hframe2 & Hcut2).
  exists (w1 ++ w2). split; [by rewrite app_assoc|]. split.
  - intros x. unfold reader_bind. rewrite <- app_assoc, Hframe1. apply Hframe2.
  - intros n Hn. rewrite length_app in Hn. unfold reader_bind.
    destruct (decide (n < length w1)) as [Hshort|Hlong].
    + rewrite take_app_le by lia. by rewrite Hcut1.
    + rewrite take_app_ge by lia. rewrite Hframe1. apply Hcut2. lia.
Qed.

Lemma reader_strict_ext {A : Type} (r r' : Reader A) :
  (∀ d, r d = r' d) → reader_strict r → reader_strict r'.
Proof.
  intros Heq Hr d v d' Hread. rewrite <- Heq in Hread.
  destruct (Hr _ _ _ Hread) as (w & -> & Hframe & Hcut).
  exists w. split; [done|]. split.
  - intros x. by rewrite <- Heq.
  - intros n Hn. rewrite <- Heq. by apply Hcut.
Qed.

Section StrictDecoders.
Context {C : Cacheable} {nodehandle_ok : Z → Prop} {string_ok : string → Prop}.
Hypothesis laws : CacheableLaws C nodehandle_ok string_ok.
Hypothesis strict : CacheableStrict C.

Lemma unserialize_attrs_strict (n : nat) (acc : gmap string string) :
  reader_strict (unserialize_attrs n acc).
Proof.
  revert acc. induction n as [|n IH]; intros acc.
  - apply (reader_strict_ext (reader_ret acc)); [done|]. apply reader_strict_ret.
  - apply (reader_strict_ext
             (reader_bind unserializestring (λ ak,
              reader_bind unserializestring (λ av,
              unserialize_attrs n (<[ak := av]> acc))))).
    + intros d. cbn [unserialize_attrs]. unfold reader_bind.
      destruct (unserializestring d) as [[ak d1]|]; [|done].
      cbn [mbind option_bind].
      by destruct (unserializestring d1) as [[av d2]|].
    + apply reader_strict_bind; [apply (string_strict _ strict)|]. intros ak.
      apply reader_strict_bind; [apply (string_strict _ strict)|]. intros av.
      apply IH.
Qed.

Lemma Set_read_strict : reader_strict Set_read.
Proof.
  unfold Set_read.
  repeat (apply reader_strict_bind;
          [first [ apply (handle_strict _ strict)
                 | apply (compressed64_strict _ strict)
                 | apply (string_strict _ strict)
                 | apply (u32_strict _ strict)
                 | apply unserialize_attrs_strict
                 | apply (expansionflags_strict _ strict) ]
          | intros ? ]).
  apply reader_strict_ret.
Qed.

Lemma SetElement_read_strict : reader_strict SetElement_read.
Proof.
  unfold SetElement_read.
  repeat (apply reader_strict_bind;
          [first [ apply (handle_strict _ strict)
                 | apply (nodehandle_strict _ strict)
                 | apply (i64_strict _ strict)
                 | apply (compressed64_strict _ strict)
                 | apply (string_strict _ strict)
                 | apply (u32_strict _ strict)
                 | apply unserialize_attrs_strict
                 | apply (expansionflags_strict _ strict) ]
          | intros ? ]).
  apply reader_strict_ret.
Qed.

Lemma Set_unserialize_read (d : list byte) :
  Set_unserialize d = fst <$> Set_read d.
Proof.
  unfold Set_unserialize, Set_read, reader_bind, reader_ret.
  destruct (unserializehandle d) as [[id d1]|]; [|done]. cbn [mbind option_bind].
  destruct (unserializehandle d1) as [[u d2]|]; [|done]. cbn [mbind option_bind].
  destruct (unserializecompressed64 d2) as [[ts d3]|]; [|done].
  cbn [mbind option_bind].
  destruct (unserializestring d3) as [[k d4]|]; [|done]. cbn [mbind option_bind].
  destruct (unserializeu32 d4) as [[n d5]|]; [|done]. cbn [mbind option_bind].
  destruct (unserialize_attrs (Z.to_nat n) ∅ d5) as [[attrs d6]|]; [|done].
  cbn [mbind option_bind].
  by destruct (unserializeexpansionflags 0 d6) as [[flags d7]|].
Qed.

Lemma SetElement_unserialize_read (d : list byte) :
  SetElement_unserialize d = fst <$> SetElement_read d.
Proof.
  unfold SetElement_unserialize, SetElement_read, reader_bind, reader_ret.
  destruct (unserializehandle d) as [[sid d1]|]; [|done]. cbn [mbind option_bind].
  destruct (unserializehandle d1) as [[eid d2]|]; [|done]. cbn [mbind option_bind].
  destruct (unserializenodehandle d2) as [[h d3]|]; [|done].
  cbn [mbind option_bind].
  destruct (unserializei64 d3) as [[o d4]|]; [|done]. cbn [mbind option_bind].
  destruct (unserializecompressed64 d4) as [[ts d5]|]; [|done].
  cbn [mbind option_bind].
  destruct (unserializestring d5) as [[k d6]|]; [|done]. cbn [mbind option_bind].
  destruct (unserializeu32 d6) as [[n d7]|]; [|done]. cbn [mbind option_bind].
  destruct (unserialize_attrs (Z.to_nat n) ∅ d7) as [[attrs d8]|]; [|done].
  cbn [mbind option_bind].
  by destruct (unserializeexpansionflags 0 d8) as [[flags d9]|].
Qed.

(** A buffer that decodes starts with a record: the object is read from
    the record whatever follows it, and not from the record cut short. *)
Lemma Set_unserialize_record (d : list byte) (s : Set_) :
  Set_unserialize d = Some s →
  ∃ record rest, d = record ++ rest ∧
    (∀ extra, Set_unserialize (record ++ extra) = Some s) ∧
    (∀ n, n < length record → Set_unserialize (take n record) = None).
Proof.
  rewrite Set_unserialize_read.
  destruct (Set_read d) as [[s' rest]|] eqn:Hread; [|done]. intros [= ->].
  destruct (Set_read_strict _ _ _ Hread) as (w & -> & Hframe & Hcut).
  exists w, rest. split; [done|]. split.
  - intros extra. by rewrite Set_unserialize_read, Hframe.
  - intros n Hn. by rewrite Set_unserialize_read, Hcut.
Qed.

Lemma SetElement_unserialize_record (d : list byte) (e : SetElement) :
  SetElement_unserialize d = Some e →
  ∃ record rest, d = record ++ rest ∧
    (∀ extra, SetElement_unserialize (record ++ extra) = Some e) ∧
    (∀ n, n < length record → SetElement_unserialize (take n record) = None).
Proof.
  rewrite SetElement_unserialize_read.
  destruct (SetElement_read d) as [[e' rest]|] eqn:Hread; [|done]. intros [= ->].
  destruct (SetElement_read_strict _ _ _ Hread) as (w & -> & Hframe & Hcut).
  exists w, rest. split; [done|]. split.
  - intros extra. by rewrite SetElement_unserialize_read, Hframe.
  - intros n Hn. by rewrite SetElement_unserialize_read, Hcut.
Qed.
End StrictDecoders.

(** ** Records cut short and counts too large *)

Section ShortInput.
Context {C : Cacheable} {nodehandle_ok : Z → Prop} {string_ok : string → Prop}.
Hypothesis laws : CacheableLaws C nodehandle_ok string_ok.
Hypothesis strict : CacheableStrict C.

Lemma serialize_attrs_items_empty (attrs : option (gmap string string)) :
  (if decide (match attrs with Some a => size a | None => 0 end = 0) then []
   else serialize_attrs (string_map_items (default ∅ attrs)))
  = serialize_attrs (string_map_items (default ∅ attrs)).
Proof.
  case_decide as Hsize; [|done].
  assert (default ∅ attrs = ∅) as ->.
  { destruct attrs as [a|]; [|done]. by apply map_size_empty_inv. }
  done.
Qed.

(** What [Set::serialize] writes is the record with the count of the
    attributes, as a [uint32_t]. *)
Lemma Set_record_counted_serialize (s : Set_) :
  (Set_serialize s []).2
  = Set_record_counted s
      (Z.of_nat (size (default ∅ (mAttrs (set_common s)))) mod 2 ^ 32)%Z.
Proof.
  unfold Set_serialize, Set_record_counted, serialize_attr_block. cbn [snd app].
  rewrite serialize_attrs_items_empty, <- !app_assoc.
  by destruct (mAttrs (set_common s)).
Qed.

Lemma SetElement_record_counted_serialize (e : SetElement) :
  (SetElement_serialize e []).2
  = SetElement_record_counted e
      (Z.of_nat (size (default ∅ (mAttrs (el_common e)))) mod 2 ^ 32)%Z.
Proof.
  unfold SetElement_serialize, SetElement_record_counted, serialize_attr_block.
  cbn [snd app]. rewrite serialize_attrs_items_empty, <- !app_assoc.
  by destruct (mAttrs (el_common e)).
Qed.

Lemma string_map_items_fit (attrs : option (gmap string string)) :
  attrs_fit string_ok attrs →
  Forall (λ kv, string_ok kv.1 ∧ string_ok kv.2)
    (string_map_items (default ∅ attrs)).
Proof.
  intros [_ Hok]. unfold string_map_items. rewrite merge_sort_Permutation.
  apply map_Forall_to_list in Hok.
  eapply Forall_impl; [exact Hok|]. by intros [k v].
Qed.

(** The whole encoding is consumed by the reads. *)
Lemma Set_read_serialize (s : Set_) :
  Set_fits string_ok s →
  ∃ s', Set_read (Set_serialize s []).2 = Some (s', []).
Proof.
  intros [(Hid & Hts & Hkey & Hattrs) Huser].
  unfold Set_serialize, Set_read, reader_bind, reader_ret. cbn [snd app].
  rewrite (handle_roundtrip _ _ _ laws) by done.
  rewrite (handle_roundtrip _ _ _ laws) by done.
  rewrite (compressed64_roundtrip _ _ _ laws) by done.
  rewrite (string_roundtrip _ _ _ laws) by done.
  destruct (unserialize_attr_block laws (mAttrs (set_common s))
              serializeexpansionflags Hattrs) as (d & -> & Hloop).
  rewrite Nat2Z.id, Hloop.
  destruct (expansionflags_roundtrip _ _ _ laws []) as [flags Hflags].
  rewrite app_nil_r in Hflags. rewrite Hflags. by eexists.
Qed.

Lemma SetElement_read_serialize (e : SetElement) :
  SetElement_fits nodehandle_ok string_ok e →
  ∃ e', SetElement_read (SetElement_serialize e []).2 = Some (e', []).
Proof.
  intros ((Hid & Hts & Hkey & Hattrs) & Hsid & Hnode & Horder).
  unfold SetElement_serialize, SetElement_read, reader_bind, reader_ret.
  cbn [snd app].
  rewrite (handle_roundtrip _ _ _ laws) by done.
  rewrite (handle_roundtrip _ _ _ laws) by done.
  rewrite (nodehandle_roundtrip _ _ _ laws) by done.
  unfold order in Horder.
  rewrite (i64_roundtrip _ _ _ laws) by (by destruct (mOrder e)).
  rewrite (compressed64_roundtrip _ _ _ laws) by done.
  rewrite (string_roundtrip _ _ _ laws) by done.
  destruct (unserialize_attr_block laws (mAttrs (el_common e))
              serializeexpansionflags Hattrs) as (d & -> & Hloop).
  rewrite Nat2Z.id, Hloop.
  destruct (expansionflags_roundtrip _ _ _ laws []) as [flags Hflags].
  rewrite app_nil_r in Hflags. rewrite Hflags. by eexists.
Qed.

(** The attribute loop takes at least two bytes a round. *)
Lemma unserialize_attrs_consumes (n : nat) (acc attrs : gmap string string)
    (d d' : list byte) :
  unserialize_attrs n acc d = Some (attrs, d') → length d' + 2 * n ≤ length d.
Proof.
  revert acc d. induction n as [|n IH]; intros acc d; cbn [unserialize_attrs].
  - intros [= _ <-]. lia.
  - destruct (unserializestring d) as [[ak d1]|] eqn:Htag; [|done].
    cbn [mbind option_bind].
    destruct (unserializestring d1) as [[av d2]|] eqn:Hval; [|done].
    cbn [mbind option_bind]. intros Hrest%IH.
    apply (string_consumes _ strict) in Htag, Hval. lia.
Qed.

Lemma unserialize_attrs_add (a k : nat) (acc : gmap string string) (d : list byte) :
  unserialize_attrs (a + k) acc d
  = unserialize_attrs a acc d ≫= λ '(attrs, d'), unserialize_attrs k attrs d'.
Proof.
  revert acc d. induction a as [|a IH]; intros acc d; [done|].
  cbn [Nat.add unserialize_attrs].
  destruct (unserializestring d) as [[ak d1]|]; [|done]. cbn [mbind option_bind].
  destruct (unserializestring d1) as [[av d2]|]; [|done]. cbn [mbind option_bind].
  apply IH.
Qed.

(** A count above the number of attributes written: the reads past the
    last attribute eat into the expansion flags, and either one of them
    fails or too little is left for the flags. *)
Lemma unserialize_attr_tail_overcount (items : list (string * string)) (count : Z) :
  Forall (λ kv, string_ok kv.1 ∧ string_ok kv.2) items →
  (Z.of_nat (length items) < count < 2 ^ 32)%Z →
  unserialize_attr_tail
    (serializeu32 count ++ serialize_attrs items ++ serializeexpansionflags)
  = None.
Proof.
  intros Hok Hcount. unfold unserialize_attr_tail.
  rewrite (u32_roundtrip _ _ _ laws) by lia. cbn [mbind option_bind].
  assert (∃ k, Z.to_nat count = length items + S k) as [k ->].
  { exists (Z.to_nat count - length items - 1). lia. }
  rewrite unserialize_attrs_add.
  rewrite (unserialize_attrs_serialize laws) by done. cbn [mbind option_bind].
  destruct (unserialize_attrs (S k) _ serializeexpansionflags)
    as [[attrs d']|] eqn:Hmore; [|done].
  cbn [mbind option_bind]. apply unserialize_attrs_consumes in Hmore.
  destruct (unserializeexpansionflags 0 d') as [[flags d'']|] eqn:Hflags; [|done].
  apply (expansionflags_consumes _ strict) in Hflags. lia.
Qed.

(** C2, as the code has it. [Set::unserialize] and
    [SetElement::unserialize] return no object
    - when a read fails at any field of the record;
    - on the encoding of an object that fits the format cut short
      anywhere, be it inside a fixed-width field, a string or the
      expansion flags;
    - on such an encoding whose count field was replaced by a larger
      count.
    Nothing is said of a count that is too small. *)
Theorem unserialize_no_value :
  (∀ d, Set_read_fails d → Set_unserialize d = None) ∧
  (∀ d, SetElement_read_fails d → SetElement_unserialize d = None) ∧
  (∀ s n, Set_fits string_ok s →
     n < length (Set_serialize s []).2 →
     Set_unserialize (take n (Set_serialize s []).2) = None) ∧
  (∀ e n, SetElement_fits nodehandle_ok string_ok e →
     n < length (SetElement_serialize e []).2 →
     SetElement_unserialize (take n (SetElement_serialize e []).2) = None) ∧
  (∀ s count, Set_fits string_ok s →
     (Z.of_nat (size (default ∅ (mAttrs (set_common s)))) < count < 2 ^ 32)%Z →
     Set_unserialize (Set_record_counted s count) = None) ∧
  (∀ e count, SetElement_fits nodehandle_ok string_ok e →
     (Z.of_nat (size (default ∅ (mAttrs (el_common e)))) < count < 2 ^ 32)%Z →
     SetElement_unserialize (SetElement_record_counted e count) = None).
Proof.
  split; [|split; [|split; [|split; [|split]]]].
  - intros d. apply unserialize_failed_read_no_value.
  - intros d. apply unserialize_failed_read_no_value.
  - intros s n Hfits Hn.
    destruct (Set_read_serialize s Hfits) as [s' Hread].
    destruct (Set_read_strict strict _ _ _ Hread) as (w & Hw & _ & Hcut).
    rewrite app_nil_r in Hw. rewrite Set_unserialize_read, Hw, Hcut; [done|].
    by rewrite <- Hw.
  - intros e n Hfits Hn.
    destruct (SetElement_read_serialize e Hfits) as [e' Hread].
    destruct (SetElement_read_strict strict _ _ _ Hread) as (w & Hw & _ & Hcut).
    rewrite app_nil_r in Hw. rewrite SetElement_unserialize_read, Hw, Hcut; [done|].
    by rewrite <- Hw.
  - intros s count [(Hid & Hts & Hkey & Hattrs) Huser] Hcount.
    rewrite Set_unserialize_tail. unfold Set_record_counted.
    rewrite (handle_roundtrip _ _ _ laws) by done. cbn [mbind option_bind].
    rewrite (handle_roundtrip _ _ _ laws) by done. cbn [mbind option_bind].
    rewrite (compressed64_roundtrip _ _ _ laws) by done. cbn [mbind option_bind].
    rewrite (string_roundtrip _ _ _ laws) by done. cbn [mbind option_bind].
    rewrite unserialize_attr_tail_overcount; [done| |].
    + by apply string_map_items_fit.
    + by rewrite length_string_map_items.
  - intros e count ((Hid & Hts & Hkey & Hattrs) & Hsid & Hnode & Horder) Hcount.
    rewrite SetElement_unserialize_tail. unfold SetElement_record_counted.
    rewrite (handle_roundtrip _ _ _ laws) by done. cbn [mbind option_bind].
    rewrite (handle_roundtrip _ _ _ laws) by done. cbn [mbind option_bind].
    rewrite (nodehandle_roundtrip _ _ _ laws) by done. cbn [mbind option_bind].
    unfold order in Horder.
    rewrite (i64_roundtrip _ _ _ laws) by (by destruct (mOrder e)).
    cbn [mbind option_bind].
    rewrite (compressed64_roundtrip _ _ _ laws) by done. cbn [mbind option_bind].
    rewrite (string_roundtrip _ _ _ laws) by done. cbn [mbind option_bind].
    rewrite unserialize_attr_tail_overcount; [done| |].
    + by apply string_map_items_fit.
    + by rewrite length_string_map_items.
Qed.
End ShortInput.

(** ** The modelled readers are strict *)

Lemma read_bytes_strict (k : nat) : reader_strict (read_bytes k).
Proof.
  intros d v d' Hread. unfold read_bytes in Hread.
  case_decide as Hlen; [|done]. injection Hread as <- <-.
  exists (take k d). split; [by rewrite take_drop|]. split.
  - intros x. unfold read_bytes.
    rewrite decide_True by (rewrite length_app, length_take; lia).
    by rewrite take_app_length', drop_app_length' by (rewrite length_take; lia).
  - intros n Hn. rewrite length_take in Hn. unfold read_bytes.
    rewrite decide_False; [done|]. rewrite !length_take. lia.
Qed.

Lemma read_bytes_length (k : nat) (d bs d' : list byte) :
  read_bytes k d = Some (bs, d') → length d = k + length d'.
Proof.
  unfold read_bytes. case_decide; [|done]. intros [= _ <-].
  rewrite length_drop. lia.
Qed.

Lemma read_bytes_map_strict {A : Type} (k : nat) (f : list byte → A) :
  reader_strict (λ d, '(bs, d') ← read_bytes k d; Some (f bs, d')).
Proof.
  apply (reader_strict_ext (reader_bind (read_bytes k) (λ bs, reader_ret (f bs)))).
  - intros d. unfold reader_bind, reader_ret.
    by destruct (read_bytes k d) as [[bs d']|].
  - apply reader_strict_bind; [apply read_bytes_strict|].
    intros bs. apply reader_strict_ret.
Qed.

Lemma mega_unserializecompressed64_strict :
  reader_strict mega_unserializecompressed64.
Proof.
  intros d v d'' Hread. destruct d as [|p d']; [done|].
  unfold mega_unserializecompressed64 in Hread.
  set (n := Z.to_nat (Z_of_byte p)) in *.
  case_decide as Hlen; [|done]. destruct Hlen as [Hmax Hlen].
  injection Hread as <- <-.
  exists (p :: take n d'). split; [by rewrite <- app_comm_cons, take_drop|]. split.
  - intros x. rewrite <- app_comm_cons. unfold mega_unserializecompressed64.
    fold n. rewrite decide_True
      by (split; [done|]; rewrite length_app, length_take; lia).
    by rewrite take_app_length', drop_app_length' by (rewrite length_take; lia).
  - intros m Hm. simpl in Hm. rewrite length_take in Hm.
    destruct m as [|m]; [done|]. rewrite firstn_cons.
    unfold mega_unserializecompressed64. fold n.
    rewrite decide_False; [done|]. intros [_ Hlong].
    rewrite !length_take in Hlong. lia.
Qed.

Lemma mega_unserializestring_strict : reader_strict mega_unserializestring.
Proof.
  apply (reader_strict_ext
           (reader_bind (read_bytes 2) (λ lb,
            reader_bind (read_bytes (Z.to_nat (le_value lb))) (λ bs,
            reader_ret (String.string_of_list_byte bs))))).
  - intros d. unfold mega_unserializestring, reader_bind, reader_ret.
    destruct (read_bytes 2 d) as [[lb d1]|]; [|done]. cbn [mbind option_bind].
    by destruct (read_bytes _ d1) as [[bs d2]|].
  - apply reader_strict_bind; [apply read_bytes_strict|]. intros lb.
    apply reader_strict_bind; [apply read_bytes_strict|]. intros bs.
    apply reader_strict_ret.
Qed.

Lemma mega_unserializeexpansionflags_strict (used : nat) :
  reader_strict (mega_unserializeexpansionflags used).
Proof.
  apply (reader_strict_ext
           (reader_bind (read_bytes 8) (λ field,
            if forallb (λ b, Byte.eqb b x00) (drop used field)
            then reader_ret field else λ _, None))).
  - intros d. unfold mega_unserializeexpansionflags, reader_bind, reader_ret.
    destruct (read_bytes 8 d) as [[field d']|]; [|done]. cbn [mbind option_bind].
    by destruct (forallb _ _).
  - apply reader_strict_bind; [apply read_bytes_strict|]. intros field.
    destruct (forallb _ _); [apply reader_strict_ret|apply reader_strict_fail].
Qed.

(** The modelled readers fail on any field cut short; a string takes its
    two bytes of prefix at least and the expansion flags take eight. *)
Lemma mega_cacheable_strict : CacheableStrict mega_cacheable.
Proof.
  split; cbn [unserializehandle unserializenodehandle unserializei64
              unserializecompressed64 unserializestring unserializeu32
              unserializeexpansionflags serializeexpansionflags mega_cacheable].
  - apply read_bytes_map_strict.
  - apply read_bytes_map_strict.
  - apply (read_bytes_map_strict 8
             (λ bs, if decide (le_value bs < 2 ^ 63)%Z then le_value bs
                    else (le_value bs - 2 ^ 64)%Z)).
  - apply mega_unserializecompressed64_strict.
  - apply mega_unserializestring_strict.
  - apply read_bytes_map_strict.
  - apply mega_unserializeexpansionflags_strict.
  - intros d s d'. unfold mega_unserializestring.
    destruct (read_bytes 2 d) as [[lb d1]|] eqn:Hprefix; [|done].
    cbn [mbind option_bind].
    destruct (read_bytes _ d1) as [[bs d2]|] eqn:Hbody; [|done].
    cbn [mbind option_bind]. intros [= _ <-].
    apply read_bytes_length in Hprefix, Hbody. lia.
  - intros used d flags d'. unfold mega_unserializeexpansionflags.
    destruct (read_bytes 8 d) as [[field d1]|] eqn:Hfield; [|done].
    cbn [mbind option_bind]. destruct (forallb _ _); [|done].
    intros [= _ <-]. apply read_bytes_length in Hfield.
    unfold mega_serializeexpansionflags. rewrite length_replicate. lia.
Qed.

Lemma unserialize_no_value_witness :
  Set_unserialize (C := mega_cacheable) truncated_set_record = None ∧
  SetElement_record_counted (C := mega_cacheable) sample_element 4%Z
    = miscounted_element_record ∧
  SetElement_unserialize (C := mega_cacheable) miscounted_element_record = None.
Proof.
  destruct (unserialize_no_value mega_cacheable_laws mega_cacheable_strict)
    as (_ & _ & Hcut & _ & _ & Hcount).
  split; [|split].
  - apply (Hcut sample_set 20).
    + fits_by_computation.
    + vm_compute. lia.
  - vm_compute. reflexivity.
  - change miscounted_element_record
      with (SetElement_record_counted (C := mega_cacheable) sample_element 4%Z).
    apply (Hcount sample_element 4%Z).
    + fits_by_computation.
    + vm_compute. split; reflexivity.
Defined.

(** The record of a Set with one attribute, its count set to 0: the
    expansion flags are read from the bytes of the attribute, which are
    zero, and a Set without attributes comes out. *)
Lemma undercounted_record_counterexample :
  (Set_serialize (C := mega_cacheable) sample_blank_set []).2
    = Set_record_counted (C := mega_cacheable) sample_blank_set 1%Z ∧
  Set_unserialize (C := mega_cacheable) undercounted_set_record
    = Some {| set_common := {| mId := 1; mKey := "k"; mAttrs := Some ∅; mTs := 0;
                               mEncryptedAttrs := None |};
              mUser := 7; set_mChanges := 0 |}.
Proof. split; vm_compute; reflexivity. Qed.

(** ** An update without attributes, or with an empty map *)

(** C5, as the code has it. What decides is whether the update has an
    attribute map, not whether the map has entries. An update without map
    leaves the local attributes as they are when its flag of cleared
    attributes is off, and takes them away when the flag is on. An update
    whose map is allocated and empty replaces the local attributes by the
    empty map whatever the flag. *)
Theorem SetElement_updateWith_attrs_absent_or_empty (incoming self : SetElement) :
  let self' := (SetElement_updateWith incoming self).1.2 in
  (mAttrs (el_common incoming) = None →
   mAttrsClearedByLastUpdate incoming = false →
     mAttrs (el_common self') = mAttrs (el_common self)) ∧
  (mAttrs (el_common incoming) = None →
   mAttrsClearedByLastUpdate incoming = true →
     mAttrs (el_common self') = None ∧
     ∀ tag, getAttr tag (el_common self') = "") ∧
  (mAttrs (el_common incoming) = Some ∅ →
     mAttrs (el_common self') = Some ∅ ∧
     ∀ tag, getAttr tag (el_common self') = "").
Proof.
  cbv zeta. rewrite SetElement_updateWith_members; simpl. unfold hasAttrs.
  split; [|split].
  - intros -> ->. done.
  - intros -> ->. simpl. split; [done|]. intros tag. done.
  - intros ->. simpl. split; [done|]. intros tag.
    unfold getAttr; simpl. by rewrite lookup_empty.
Qed.

Lemma SetElement_updateWith_attrs_absent_or_empty_witness :
  mAttrs (el_common (SetElement_updateWith (sample_update false) sample_element).1.2)
    = mAttrs (el_common sample_element) ∧
  mAttrs (el_common (SetElement_updateWith (sample_update true) sample_element).1.2)
    = None ∧
  mAttrs (el_common (SetElement_updateWith sample_update_empty sample_element).1.2)
    = Some ∅.
Proof.
  split; [|split].
  - apply (SetElement_updateWith_attrs_absent_or_empty (sample_update false)
             sample_element); reflexivity.
  - apply (SetElement_updateWith_attrs_absent_or_empty (sample_update true)
             sample_element); reflexivity.
  - apply (SetElement_updateWith_attrs_absent_or_empty sample_update_empty
             sample_element); reflexivity.
Defined.

(** An update that carries no attribute, its map being allocated and
    empty, and whose flag is off: the name "A" of the local Element is
    lost. *)
Lemma updateWith_empty_map_counterexample :
  default ∅ (mAttrs (el_common sample_update_empty)) = ∅ ∧
  mAttrsClearedByLastUpdate sample_update_empty = false ∧
  getAttr nameTag (el_common sample_element) = "A" ∧
  getAttr nameTag
    (el_common (SetElement_updateWith sample_update_empty sample_element).1.2) = "" ∧
  mAttrs (el_common (SetElement_updateWith sample_update_empty sample_element).1.2)
    ≠ mAttrs (el_common sample_element).
Proof. repeat split. vm_compute. congruence. Qed.
